(** * The CPS survey-to-simulation-input pipeline

    A shallow embedding of [openfisca_us/data/datasets/cps/cps.py]: the
    five raw tables, the output container (an h5py file: an append-only
    mapping from variable names to one-dimensional datasets), the five
    recoding passes and the generation entry point.

    Modelling conventions.
    - A [DataFrame] is the list of its rows, in row order; a column
      [df.FIELD] is [map FIELD df].
    - Raw survey fields are integer codes and amounts, held in 64-bit
      integer columns ([int64]).  A field is an integer ([Z]); the
      arithmetic of the columns wraps around as numpy's does
      ([wrap64]).
    - [x / 1e2], the random draws and the recoded age are binary64
      floats.  A float is the rational number it stands for ([Q], in
      lowest terms); an operation on floats is the exact operation
      followed by rounding to the nearest float, ties to the even one
      ([round64]).  No operation of the pipeline overflows on 64-bit
      fields; infinities and NaN are not modelled.
    - Python exceptions are the [Err] results of a state-and-error
      monad: the statements after the raising one are not run, and the
      state is the one reached when the exception was raised.
    - The tables are well formed (every row has every field) and the
      calls on the two stores ([RawCPS.load], [h5py.File], [close])
      succeed; what can raise is the code of the passes. *)

From Stdlib Require Import ZArith QArith Lia Lqa List.
From Stdlib Require Import Qminmax Qabs Qpower Qround Qreduction.
From stdpp Require Import base option list strings sorting gmap fin_maps.

Open Scope Z_scope.

(** ** Raw tables *)

Module Person.
Record row : Type := mk {
  PH_SEQ : Z; P_SEQ : Z; PF_SEQ : Z;
  TAX_ID : Z; SPM_ID : Z;
  A_FNLWGT : Z; A_AGE : Z;
  WSAL_VAL : Z; SEMP_VAL : Z; FRSE_VAL : Z; SS_VAL : Z; UC_VAL : Z;
  OI_OFF : Z; OI_VAL : Z
}.
End Person.

Module Family.
Record row : Type := mk { FH_SEQ : Z; FFPOS : Z; FSUP_WGT : Z }.
End Family.

Module TaxUnit.
Record row : Type := mk { TAX_ID : Z }.
End TaxUnit.

Module SpmUnit.
Record row : Type := mk {
  SPM_ID : Z; SPM_WEIGHT : Z;
  SPM_TOTVAL : Z; SPM_SNAPSUB : Z; SPM_CAPHOUSESUB : Z;
  SPM_SCHLUNCH : Z; SPM_ENGVAL : Z; SPM_WICVAL : Z; SPM_FICA : Z;
  SPM_FEDTAX : Z; SPM_STTAX : Z; SPM_CAPWKCCXPNS : Z; SPM_MEDXPNS : Z;
  SPM_POVTHRESHOLD : Z; SPM_RESOURCES : Z
}.

(** [spm_unit[name]]: the field of that name, if the table has it. *)
Definition field (name : string) : option (row → Z) :=
  if String.eqb name "SPM_ID" then Some SPM_ID
  else if String.eqb name "SPM_WEIGHT" then Some SPM_WEIGHT
  else if String.eqb name "SPM_TOTVAL" then Some SPM_TOTVAL
  else if String.eqb name "SPM_SNAPSUB" then Some SPM_SNAPSUB
  else if String.eqb name "SPM_CAPHOUSESUB" then Some SPM_CAPHOUSESUB
  else if String.eqb name "SPM_SCHLUNCH" then Some SPM_SCHLUNCH
  else if String.eqb name "SPM_ENGVAL" then Some SPM_ENGVAL
  else if String.eqb name "SPM_WICVAL" then Some SPM_WICVAL
  else if String.eqb name "SPM_FICA" then Some SPM_FICA
  else if String.eqb name "SPM_FEDTAX" then Some SPM_FEDTAX
  else if String.eqb name "SPM_STTAX" then Some SPM_STTAX
  else if String.eqb name "SPM_CAPWKCCXPNS" then Some SPM_CAPWKCCXPNS
  else if String.eqb name "SPM_MEDXPNS" then Some SPM_MEDXPNS
  else if String.eqb name "SPM_POVTHRESHOLD" then Some SPM_POVTHRESHOLD
  else if String.eqb name "SPM_RESOURCES" then Some SPM_RESOURCES
  else None.
End SpmUnit.

Module Household.
Record row : Type := mk { H_SEQ : Z; HSUP_WGT : Z; GESTFIPS : Z }.
End Household.

(** The five tables [generate] takes out of [RawCPS.load(year)]. *)
Record RawTables : Type := mkRaw {
  person : list Person.row;
  tax_unit : list TaxUnit.row;
  family : list Family.row;
  spm_unit : list SpmUnit.row;
  household : list Household.row
}.

(** ** Machine numbers *)

(** The 64-bit two's-complement integer congruent to [z]: what an
    [int64] operation whose exact result is [z] returns. *)
Definition wrap64 (z : Z) : Z := (z + 2 ^ 63) mod 2 ^ 64 - 2 ^ 63.

(** The integer nearest to [x]; of two equally near, the even one. *)
Definition rne (x : Q) : Z :=
  let f := Qfloor x in
  match (x - inject_Z f ?= 1 # 2)%Q with
  | Lt => f
  | Gt => f + 1
  | Eq => if Z.even f then f else f + 1
  end.

(** For [q > 0], the [c] with [2 ^ c <= q < 2 ^ (c + 1)]. *)
Definition floor_log2 (q : Q) : Z :=
  let c := Z.log2 (Qnum q) - Z.log2 (QDen q) in
  if Qle_bool (2 ^ c) q then c else c - 1.

(** The exponent of the last place of the floats around [q]: a float
    has 53 significant bits, and no bit under [2 ^ (-1074)]. *)
Definition exponent (q : Q) : Z := Z.max (floor_log2 (Qabs q) - 52) (-1074).

(** The binary64 float nearest to [q], ties to even. *)
Definition round64 (q : Q) : Q :=
  if Qeq_bool q 0 then 0%Q
  else Qred (inject_Z (rne (q / 2 ^ exponent q)) * 2 ^ exponent q).

(** An [int64] converted to [float64], and the arithmetic of floats. *)
Definition float_of_int (x : Z) : Q := round64 (inject_Z x).
Definition fadd (a b : Q) : Q := round64 (a + b).
Definition fmul (a b : Q) : Q := round64 (a * b).
Definition fdiv (a b : Q) : Q := round64 (a / b).

Arguments wrap64 : simpl never.
Arguments round64 : simpl never.

(** ** The output container *)

(** An h5py dataset: a one-dimensional array of integers or of floats. *)
Inductive column : Type :=
| ColInt (xs : list Z)
| ColFloat (xs : list Q).

Definition col_length (c : column) : nat :=
  match c with
  | ColInt xs => length xs
  | ColFloat xs => length xs
  end.

(** The numeric value of an entry, whatever the dataset's type. *)
Definition col_values (c : column) : list Q :=
  match c with
  | ColInt xs => map inject_Z xs
  | ColFloat xs => xs
  end.

(** The file: variable name to dataset. *)
Abbreviation h5file := (gmap string column).

Inductive error : Type :=
| KeyError (k : string)       (* a name or a label that is not there *)
| KeyErrorLabel (k : Z)
| NameExists (k : string)     (* h5py refuses to rebind a name *)
| LengthMismatch (n m : nat)  (* grouper and axis of different length *)
| NotInteger (k : string)     (* a float dataset used as a label array *)
| TypeError (op : string).    (* an operator with no loop for its operands *)

Inductive result (A : Type) : Type :=
| Ok (a : A)
| Err (e : error).

Arguments Ok {A} a.
Arguments Err {A} e.

(** ** State and exceptions *)

Definition M (S A : Type) : Type := S → result A * S.

Definition ret {S A} (a : A) : M S A := fun s => (Ok a, s).

Definition raise {S A} (e : error) : M S A := fun s => (Err e, s).

Definition bind {S A B} (m : M S A) (k : A → M S B) : M S B :=
  fun s =>
    match m s with
    | (Ok a, s') => k a s'
    | (Err e, s') => (Err e, s')
    end.

Definition lift_result {S A} (r : result A) : M S A := fun s => (r, s).

Global Instance M_ret {S} : MRet (M S) := fun A a => ret a.
Global Instance M_bind {S} : MBind (M S) := fun A B k m => bind m k.

(** [cps[k] = c]: creates the dataset; an existing name is an error. *)
Definition assign (k : string) (c : column) : M h5file unit :=
  fun f =>
    match f !! k with
    | Some _ => (Err (NameExists k), f)
    | None => (Ok tt, <[k := c]> f)
    end.

(** [cps[k][...]]: reads a dataset back. *)
Definition read (k : string) : M h5file column :=
  fun f =>
    match f !! k with
    | Some c => (Ok c, f)
    | None => (Err (KeyError k), f)
    end.

(** A dataset read back to serve as labels (ids). *)
Definition read_labels (k : string) : M h5file (list Z) :=
  c ← read k;
  match c with
  | ColInt xs => ret xs
  | ColFloat _ => raise (NotInteger k)
  end.

(** ** Series operations used by the weight propagation *)

(** [x / 1e2] on an integer column: the integer is converted to a
    float, the float divided by 100.0. *)
Definition div100 (x : Z) : Q := fdiv (float_of_int x) 100.

Arguments div100 : simpl never.

(** A [Series] with integer labels: its (label, value) rows. *)
Abbreviation series := (list (Z * Q)).

(** [Series(values, index=index)]: the two must have the same length. *)
Definition make_series (values : list Q) (index : list Z) : result series :=
  if Nat.eqb (length values) (length index) then Ok (zip index values)
  else Err (LengthMismatch (length values) (length index)).

(** The rows of a series whose label is [k], in row order. *)
Definition rows_labelled (s : series) (k : Z) : series :=
  filter (fun r => r.1 = k) s.

(** [s[keys]] for an integer-labelled series: label-based selection of a
    list of labels.  Every label selects all the rows that carry it; a
    label carried by no row raises [KeyError]. *)
Fixpoint series_getitem (s : series) (keys : list Z) : result series :=
  match keys with
  | [] => Ok []
  | k :: keys' =>
      match rows_labelled s k with
      | [] => Err (KeyErrorLabel k)
      | rows =>
          match series_getitem s keys' with
          | Ok rest => Ok (rows ++ rest)
          | Err e => Err e
          end
      end
  end.

(** Insertion into an ascending list without repetition. *)
Fixpoint insert_unique (k : Z) (l : list Z) : list Z :=
  match l with
  | [] => [k]
  | x :: l' =>
      if Z.ltb k x then k :: l
      else if Z.eqb k x then l
      else x :: insert_unique k l'
  end.

(** The group labels of a [groupby] (default [sort=True]): the distinct
    keys, ascending. *)
Definition group_keys (keys : list Z) : list Z :=
  foldr insert_unique [] keys.

(** The first value of the group of [k]; the grouper array [keys] is
    paired with the rows of the series by position. *)
Fixpoint group_first (keys : list Z) (values : list Q) (k : Z) : option Q :=
  match keys, values with
  | g :: keys', v :: values' =>
      if Z.eqb g k then Some v else group_first keys' values' k
  | _, _ => None
  end.

(** [s.groupby(keys).first()]: one row per group label, ascending.  The
    grouper array must be as long as the series. *)
Definition groupby_first (s : series) (keys : list Z) : result series :=
  if Nat.eqb (length keys) (length s) then
    Ok (omap (fun k => pair k <$> group_first keys s.*2 k) (group_keys keys))
  else Err (LengthMismatch (length keys) (length s)).

(** ** Element-wise column arithmetic *)

(** [xs * c] and [xs + ys] on [int64] columns. *)
Definition col_scale (c : Z) (xs : list Z) : list Z :=
  map (fun x => wrap64 (x * c)) xs.
Definition col_add (xs ys : list Z) : list Z :=
  zip_with (fun x y => wrap64 (x + y)) xs ys.
Definition col_div100 (xs : list Z) : list Q := map div100 xs.

(** [xs.isin(codes)] and [xs == c] and [xs.between(lo, hi)] (inclusive). *)
Definition isin (codes : list Z) (xs : list Z) : list bool :=
  map (fun x => existsb (Z.eqb x) codes) xs.
Definition col_eq (c : Z) (xs : list Z) : list bool := map (fun x => Z.eqb x c) xs.
Definition between (lo hi : Z) (xs : list Z) : list bool :=
  map (fun x => Z.leb lo x && Z.leb x hi) xs.

(** [mask * xs]: a boolean column times an integer column. *)
Definition mask_mul (mask : list bool) (xs : list Z) : list Z :=
  zip_with (fun b x => Z.b2z b * x) mask xs.

(** [np.where(cond, xs, ys)]. *)
Definition np_where (cond : list bool) (xs ys : list Q) : list Q :=
  zip_with (fun c xy => if c : bool then xy.1 else xy.2) cond (zip xs ys).

(** The ambient random source: the stream of its draws, floats in
    [0, 1).  [np.random.rand(n)] is the first [n] of them. *)
Definition np_random_rand (draws : nat → Q) (n : nat) : list Q :=
  map draws (seq 0 n).

(** ** The passes *)

Definition add_id_variables
    (person : list Person.row) (tax_unit : list TaxUnit.row)
    (family : list Family.row) (spm_unit : list SpmUnit.row)
    (household : list Household.row) : M h5file unit :=
  (* Add primary and foreign keys *)
  assign "person_id"
    (ColInt (col_add (col_scale 100 (map Person.PH_SEQ person))
                     (map Person.P_SEQ person)));;
  assign "family_id"
    (ColInt (col_add (col_scale 10 (map Family.FH_SEQ family))
                     (map Family.FFPOS family)));;
  assign "household_id" (ColInt (map Household.H_SEQ household));;
  assign "person_tax_unit_id" (ColInt (map Person.TAX_ID person));;
  assign "person_spm_unit_id" (ColInt (map Person.SPM_ID person));;
  assign "tax_unit_id" (ColInt (map TaxUnit.TAX_ID tax_unit));;
  assign "spm_unit_id" (ColInt (map SpmUnit.SPM_ID spm_unit));;
  assign "person_household_id" (ColInt (map Person.PH_SEQ person));;
  assign "person_family_id"
    (ColInt (col_add (col_scale 10 (map Person.PH_SEQ person))
                     (map Person.PF_SEQ person)));;
  (* Add weights *)
  assign "person_weight" (ColFloat (col_div100 (map Person.A_FNLWGT person)));;
  assign "family_weight" (ColFloat (col_div100 (map Family.FSUP_WGT family)));;
  (* Tax unit weight is the weight of the containing family. *)
  fw ← read "family_weight";
  fid ← read_labels "family_id";
  family_weight ← lift_result (make_series (col_values fw) fid);
  person_family_id ← read_labels "person_family_id";
  persons_family_weight ← lift_result (series_getitem family_weight person_family_id);
  person_tax_unit_id ← read_labels "person_tax_unit_id";
  tax_unit_weight ← lift_result (groupby_first persons_family_weight person_tax_unit_id);
  assign "tax_unit_weight" (ColFloat tax_unit_weight.*2);;
  assign "spm_unit_weight" (ColFloat (col_div100 (map SpmUnit.SPM_WEIGHT spm_unit)));;
  assign "household_weight" (ColFloat (col_div100 (map Household.HSUP_WGT household))).

(** [np.where] of a float column and an integer column is a float
    column: the integers are converted. *)
Definition add_personal_variables (draws : nat → Q) (person : list Person.row)
  : M h5file unit :=
  assign "age"
    (ColFloat
       (np_where (between 80 85 (map Person.A_AGE person))
          (map (fun u => fadd 80 (fmul 5 u)) (np_random_rand draws (length person)))
          (map float_of_int (map Person.A_AGE person)))).

Definition add_personal_income_variables (person : list Person.row)
  : M h5file unit :=
  assign "employment_income" (ColInt (map Person.WSAL_VAL person));;
  assign "self_employment_income" (ColInt (map Person.SEMP_VAL person));;
  assign "e02100" (ColInt (map Person.FRSE_VAL person));;
  assign "social_security" (ColInt (map Person.SS_VAL person));;
  assign "e02300" (ColInt (map Person.UC_VAL person));;
  (* Pensions/annuities *)
  let other_inc_type := map Person.OI_OFF person in
  assign "e01500"
    (ColInt (mask_mul (isin [2; 13] other_inc_type) (map Person.OI_VAL person)));;
  (* Alimony *)
  assign "e00800"
    (ColInt (mask_mul (col_eq 20 (map Person.OI_OFF person))
                      (map Person.OI_VAL person))).

(** The rename table, canonical name first, in the order it is written. *)
Definition SPM_RENAMES : list (string * string) :=
  [ ("spm_unit_total_income", "SPM_TOTVAL");
    ("snap", "SPM_SNAPSUB");
    ("spm_unit_capped_housing_subsidy", "SPM_CAPHOUSESUB");
    ("free_school_meals", "SPM_SCHLUNCH");
    ("spm_unit_energy_subsidy", "SPM_ENGVAL");
    ("spm_unit_wic", "SPM_WICVAL");
    ("spm_unit_fica", "SPM_FICA");
    ("spm_unit_federal_tax", "SPM_FEDTAX");
    ("spm_unit_state_tax", "SPM_STTAX");
    ("spm_unit_work_childcare_expenses", "SPM_CAPWKCCXPNS");
    ("spm_unit_medical_expenses", "SPM_MEDXPNS");
    ("spm_unit_spm_threshold", "SPM_POVTHRESHOLD");
    ("spm_unit_net_income_reported", "SPM_RESOURCES") ].

(** [spm_unit[asec_variable]]. *)
Definition spm_column (spm_unit : list SpmUnit.row) (asec_variable : string)
  : result (list Z) :=
  match SpmUnit.field asec_variable with
  | Some f => Ok (map f spm_unit)
  | None => Err (KeyError asec_variable)
  end.

(** [for openfisca_variable, asec_variable in renames.items(): ...]. *)
Fixpoint copy_renamed (spm_unit : list SpmUnit.row)
    (renames : list (string * string)) : M h5file unit :=
  match renames with
  | [] => mret tt
  | (openfisca_variable, asec_variable) :: renames' =>
      xs ← lift_result (spm_column spm_unit asec_variable);
      assign openfisca_variable (ColInt xs);;
      copy_renamed spm_unit renames'
  end.

Definition add_spm_variables (spm_unit : list SpmUnit.row) : M h5file unit :=
  copy_renamed spm_unit SPM_RENAMES;;
  c ← read "free_school_meals";
  assign "reduced_price_school_meals"
    (match c with
     | ColInt xs => ColInt (col_scale 0 xs)
     | ColFloat xs => ColFloat (map (fun x => fmul x 0) xs)
     end).

Definition add_household_variables (household : list Household.row)
  : M h5file unit :=
  assign "fips" (ColInt (map Household.GESTFIPS household)).

(** ** The generation entry point *)

Inductive handle : Type := Open | Closed.

(** What [generate] acts on: the handle on the raw store, the handle on
    the output file, and the datasets of the file at [self.file(year)]. *)
Record world : Type := mkWorld {
  raw_data : handle;
  cps_handle : handle;
  artifact : h5file
}.

(** [raw_data = RawCPS.load(year)], once the store of the year exists. *)
Definition load_raw : M world unit :=
  fun w => (Ok tt, mkWorld Open (cps_handle w) (artifact w)).

(** [cps = h5py.File(self.file(year), mode="w")]: creates the file,
    truncating an existing one.  The call is taken to succeed (h5py
    refuses it when the file is still open elsewhere). *)
Definition open_for_write : M world unit :=
  fun w => (Ok tt, mkWorld (raw_data w) Open ∅).

(** A pass run on the open output file. *)
Definition on_cps {A} (m : M h5file A) : M world A :=
  fun w =>
    let '(r, f) := m (artifact w) in
    (r, mkWorld (raw_data w) (cps_handle w) f).

Definition close_raw : M world unit :=
  fun w => (Ok tt, mkWorld Closed (cps_handle w) (artifact w)).

Definition close_cps : M world unit :=
  fun w => (Ok tt, mkWorld (raw_data w) Closed (artifact w)).

(** [CPS.generate].  Lines 28-31 see to it that the raw store of the
    year exists, building it when it does not; [raw] is what
    [RawCPS.load(year)] then holds, and the run is modelled from that
    call on. *)
Definition generate (raw : RawTables) (draws : nat → Q) : M world unit :=
  load_raw;;
  open_for_write;;
  on_cps (add_id_variables (person raw) (tax_unit raw) (family raw)
            (spm_unit raw) (household raw));;
  on_cps (add_personal_variables draws (person raw));;
  on_cps (add_personal_income_variables (person raw));;
  on_cps (add_spm_variables (spm_unit raw));;
  on_cps (add_household_variables (household raw));;
  close_raw;;
  close_cps.

(** * What the passes compute and write *)

(** The entries of [family_id] and of [person_family_id], on one row. *)
Definition family_id (r : Family.row) : Z :=
  wrap64 (wrap64 (Family.FH_SEQ r * 10) + Family.FFPOS r).
Definition person_family_id (p : Person.row) : Z :=
  wrap64 (wrap64 (Person.PH_SEQ p * 10) + Person.PF_SEQ p).

(** The family-weight series: one row per family row, labelled by its id. *)
Definition family_weight_series (family : list Family.row) : series :=
  map (fun r => (family_id r, div100 (Family.FSUP_WGT r))) family.

(** The computation of lines 94-101 of the source, apart from the
    file: the family-weight series, its selection by the persons'
    family ids, the first value per tax unit. *)
Definition tax_unit_weight_series (person : list Person.row)
    (family : list Family.row) : result series :=
  match make_series (col_div100 (map Family.FSUP_WGT family))
          (col_add (col_scale 10 (map Family.FH_SEQ family)) (map Family.FFPOS family)) with
  | Ok family_weight =>
      match series_getitem family_weight
              (col_add (col_scale 10 (map Person.PH_SEQ person)) (map Person.PF_SEQ person)) with
      | Ok persons_family_weight =>
          groupby_first persons_family_weight (map Person.TAX_ID person)
      | Err e => Err e
      end
  | Err e => Err e
  end.

(** The weight the data model gives the tax unit [k]: the family weight
    of the family of the first person, in row order, whose
    [person_tax_unit_id] is [k]. *)
Definition first_member_family_weight (person : list Person.row)
    (family : list Family.row) (k : Z) : option Q :=
  p ← head (filter (fun p => Person.TAX_ID p = k) person);
  match filter (fun r => family_id r = person_family_id p) family with
  | [r] => Some (div100 (Family.FSUP_WGT r))
  | _ => None
  end.

(** Every person's family id is the id of exactly one family row. *)
Definition families_resolve (person : list Person.row)
    (family : list Family.row) : Prop :=
  Forall (fun p =>
            ∃ r, filter (fun r => family_id r = person_family_id p) family = [r])
    person.

(** The column [add_personal_variables] writes. *)
Definition age_column (draws : nat → Q) (person : list Person.row) : list Q :=
  np_where (between 80 85 (map Person.A_AGE person))
    (map (fun u => fadd 80 (fmul 5 u)) (np_random_rand draws (length person)))
    (map float_of_int (map Person.A_AGE person)).

(** The file after the first eleven assignments of [add_id_variables]. *)
Definition with_ids (raw : RawTables) (f : h5file) : h5file :=
  <["family_weight" := ColFloat (col_div100 (map Family.FSUP_WGT (family raw)))]>
  (<["person_weight" := ColFloat (col_div100 (map Person.A_FNLWGT (person raw)))]>
  (<["person_family_id" :=
      ColInt (col_add (col_scale 10 (map Person.PH_SEQ (person raw)))
                      (map Person.PF_SEQ (person raw)))]>
  (<["person_household_id" := ColInt (map Person.PH_SEQ (person raw))]>
  (<["spm_unit_id" := ColInt (map SpmUnit.SPM_ID (spm_unit raw))]>
  (<["tax_unit_id" := ColInt (map TaxUnit.TAX_ID (tax_unit raw))]>
  (<["person_spm_unit_id" := ColInt (map Person.SPM_ID (person raw))]>
  (<["person_tax_unit_id" := ColInt (map Person.TAX_ID (person raw))]>
  (<["household_id" := ColInt (map Household.H_SEQ (household raw))]>
  (<["family_id" :=
      ColInt (col_add (col_scale 10 (map Family.FH_SEQ (family raw)))
                      (map Family.FFPOS (family raw)))]>
  (<["person_id" :=
      ColInt (col_add (col_scale 100 (map Person.PH_SEQ (person raw)))
                      (map Person.P_SEQ (person raw)))]> f)))))))))).

(** The file after the last three, [tw] being the grouped series. *)
Definition with_late_weights (raw : RawTables) (tw : series) (f : h5file) : h5file :=
  <["household_weight" := ColFloat (col_div100 (map Household.HSUP_WGT (household raw)))]>
  (<["spm_unit_weight" := ColFloat (col_div100 (map SpmUnit.SPM_WEIGHT (spm_unit raw)))]>
  (<["tax_unit_weight" := ColFloat tw.*2]> f)).

(** The file after [add_personal_income_variables]. *)
Definition with_personal_income (person : list Person.row) (f : h5file) : h5file :=
  <["e00800" := ColInt (mask_mul (col_eq 20 (map Person.OI_OFF person))
                      (map Person.OI_VAL person))]>
  (<["e01500" := ColInt (mask_mul (isin [2; 13] (map Person.OI_OFF person)) (map Person.OI_VAL person))]>
  (<["e02300" := ColInt (map Person.UC_VAL person)]>
  (<["social_security" := ColInt (map Person.SS_VAL person)]>
  (<["e02100" := ColInt (map Person.FRSE_VAL person)]>
  (<["self_employment_income" := ColInt (map Person.SEMP_VAL person)]>
  (<["employment_income" := ColInt (map Person.WSAL_VAL person)]> f)))))).

(** The file after [add_spm_variables]. *)
Definition with_spm (spm_unit : list SpmUnit.row) (f : h5file) : h5file :=
  <["reduced_price_school_meals" := ColInt (col_scale 0 (map SpmUnit.SPM_SCHLUNCH spm_unit))]>
  (<["spm_unit_net_income_reported" := ColInt (map SpmUnit.SPM_RESOURCES spm_unit)]>
  (<["spm_unit_spm_threshold" := ColInt (map SpmUnit.SPM_POVTHRESHOLD spm_unit)]>
  (<["spm_unit_medical_expenses" := ColInt (map SpmUnit.SPM_MEDXPNS spm_unit)]>
  (<["spm_unit_work_childcare_expenses" := ColInt (map SpmUnit.SPM_CAPWKCCXPNS spm_unit)]>
  (<["spm_unit_state_tax" := ColInt (map SpmUnit.SPM_STTAX spm_unit)]>
  (<["spm_unit_federal_tax" := ColInt (map SpmUnit.SPM_FEDTAX spm_unit)]>
  (<["spm_unit_fica" := ColInt (map SpmUnit.SPM_FICA spm_unit)]>
  (<["spm_unit_wic" := ColInt (map SpmUnit.SPM_WICVAL spm_unit)]>
  (<["spm_unit_energy_subsidy" := ColInt (map SpmUnit.SPM_ENGVAL spm_unit)]>
  (<["free_school_meals" := ColInt (map SpmUnit.SPM_SCHLUNCH spm_unit)]>
  (<["spm_unit_capped_housing_subsidy" := ColInt (map SpmUnit.SPM_CAPHOUSESUB spm_unit)]>
  (<["snap" := ColInt (map SpmUnit.SPM_SNAPSUB spm_unit)]>
  (<["spm_unit_total_income" := ColInt (map SpmUnit.SPM_TOTVAL spm_unit)]> f))))))))))))).

(** The file a completed run leaves. *)
Definition final_artifact (raw : RawTables) (draws : nat → Q) (tw : series) : h5file :=
  <["fips" := ColInt (map Household.GESTFIPS (household raw))]>
  (with_spm (spm_unit raw)
  (with_personal_income (person raw)
  (<["age" := ColFloat (age_column draws (person raw))]>
  (with_late_weights raw tw (with_ids raw ∅))))).

(** The names each pass binds. *)
Definition id_names : list string :=
  [ "person_id"; "family_id"; "household_id"; "person_tax_unit_id";
    "person_spm_unit_id"; "tax_unit_id"; "spm_unit_id"; "person_household_id";
    "person_family_id"; "person_weight"; "family_weight"; "tax_unit_weight";
    "spm_unit_weight"; "household_weight" ].

Definition income_names : list string :=
  ["employment_income"; "self_employment_income"; "e02100"; "social_security"; "e02300"; "e01500"; "e00800"].

Definition spm_names : list string :=
  SPM_RENAMES.*1 ++ ["reduced_price_school_meals"].

(** The weight columns. *)
Definition weight_names : list string :=
  [ "person_weight"; "family_weight"; "tax_unit_weight"; "spm_unit_weight";
    "household_weight" ].

(** * Entity levels and alignment *)

(** Strictly ascending lists. *)
Definition ascending (l : list Z) : Prop := StronglySorted Z.lt l.

Inductive entity : Type :=
| PersonLevel | FamilyLevel | TaxUnitLevel | SpmUnitLevel | HouseholdLevel.

Global Instance entity_eq_dec : EqDecision entity.
Proof. solve_decision. Defined.

Definition id_column (e : entity) : string :=
  match e with
  | PersonLevel => "person_id"
  | FamilyLevel => "family_id"
  | TaxUnitLevel => "tax_unit_id"
  | SpmUnitLevel => "spm_unit_id"
  | HouseholdLevel => "household_id"
  end.

(** The names the passes write, by the entity they describe. *)
Definition columns_of (e : entity) : list string :=
  match e with
  | PersonLevel =>
      [ "person_id"; "person_tax_unit_id"; "person_spm_unit_id";
        "person_household_id"; "person_family_id"; "person_weight"; "age" ]
      ++ income_names
  | FamilyLevel => [ "family_id"; "family_weight" ]
  | TaxUnitLevel => [ "tax_unit_id"; "tax_unit_weight" ]
  | SpmUnitLevel => [ "spm_unit_id"; "spm_unit_weight" ] ++ spm_names
  | HouseholdLevel => [ "household_id"; "household_weight"; "fips" ]
  end.

Definition rows_of (raw : RawTables) (e : entity) : nat :=
  match e with
  | PersonLevel => length (person raw)
  | FamilyLevel => length (family raw)
  | TaxUnitLevel => length (tax_unit raw)
  | SpmUnitLevel => length (spm_unit raw)
  | HouseholdLevel => length (household raw)
  end.

(** * A small survey extract

    Three persons in two households.  The first two persons form one
    tax unit (id 2) but belong to two families of different weights. *)

(** A person row; the five income amounts not used below are 0. *)
Definition example_person (ph p pf tax spm wgt age oi_off oi_val : Z) : Person.row :=
  Person.mk ph p pf tax spm wgt age 0 0 0 0 0 oi_off oi_val.

(** An SPM-unit row, with its id, weight and school-lunch value. *)
Definition example_spm_unit (id wgt lunch : Z) : SpmUnit.row :=
  SpmUnit.mk id wgt 1 2 3 lunch 5 6 7 8 9 10 11 12 13.

Definition example_raw : RawTables :=
  mkRaw
    [ example_person 1 1 1 2 1 150 79 2 500;
      example_person 1 2 2 2 1 250 85 20 300;
      example_person 2 1 1 1 2 100 30 7 100 ]
    [ TaxUnit.mk 1; TaxUnit.mk 2 ]
    [ Family.mk 1 1 1000; Family.mk 1 2 2000; Family.mk 2 1 3000 ]
    [ example_spm_unit 1 500 40; example_spm_unit 2 600 0 ]
    [ Household.mk 1 700 6; Household.mk 2 800 36 ].

(** A random source whose every draw is 1/2. *)
Definition example_draws : nat → Q := fun _ => 1 # 2.

(** Before the run: no handle open, no dataset in the file. *)
Definition example_world : world := mkWorld Closed Closed ∅.

Definition example_output : world :=
  (generate example_raw example_draws example_world).2.

(** The same extract with the rows of the tax-unit table swapped. *)
Definition unsorted_raw : RawTables :=
  mkRaw (person example_raw) [ TaxUnit.mk 2; TaxUnit.mk 1 ]
    (family example_raw) (spm_unit example_raw) (household example_raw).

Definition unsorted_output : world :=
  (generate unsorted_raw example_draws example_world).2.

(** One person whose family (id 11) is not in the family table. *)
Definition orphan_raw : RawTables :=
  mkRaw [ example_person 1 1 1 1 1 150 40 0 0 ]
        [ TaxUnit.mk 1 ]
        [ Family.mk 2 1 3000 ]
        [ example_spm_unit 1 500 0 ]
        [ Household.mk 1 700 6 ].

(** One person whose [PH_SEQ * 100] does not fit 64 bits; every field
    does. *)
Definition overflow_raw : RawTables :=
  mkRaw [ example_person 92233720368547759 0 1 1 1 150 40 0 0 ]
        [ TaxUnit.mk 1 ]
        [ Family.mk 92233720368547759 1 3000 ]
        [ example_spm_unit 1 500 0 ]
        [ Household.mk 92233720368547759 700 6 ].

(** A random source whose every draw is the largest float under 1,
    [1 - 2 ^ (-53)]. *)
Definition top_draws : nat → Q :=
  fun _ => (9007199254740991 # 9007199254740992)%Q.

(** One person whose recorded age is [2 ^ 53 + 1]. *)
Definition huge_age_raw : RawTables :=
  mkRaw [ example_person 1 1 1 1 1 150 9007199254740993 0 0 ]
        [ TaxUnit.mk 1 ]
        [ Family.mk 1 1 3000 ]
        [ example_spm_unit 1 500 0 ]
        [ Household.mk 1 700 6 ].

(** * Further definitions *)

(** The names [add_id_variables] binds before it propagates the weights. *)
Definition names_before_propagation : list string :=
  [ "person_id"; "family_id"; "household_id"; "person_tax_unit_id";
    "person_spm_unit_id"; "tax_unit_id"; "spm_unit_id"; "person_household_id";
    "person_family_id"; "person_weight"; "family_weight" ].

(** Every name a completed run binds. *)
Definition all_names : list string :=
  columns_of PersonLevel ++ columns_of FamilyLevel ++ columns_of TaxUnitLevel
  ++ columns_of SpmUnitLevel ++ columns_of HouseholdLevel.

(** One person whose family id (11) is carried by two family rows. *)
Definition repeated_raw : RawTables :=
  mkRaw [ example_person 1 1 1 1 1 150 40 0 0 ]
        [ TaxUnit.mk 1 ]
        [ Family.mk 1 1 3000; Family.mk 1 1 5000 ]
        [ example_spm_unit 1 500 0 ]
        [ Household.mk 1 700 6 ].

(** Members of one tax unit are members of one family. *)
Definition tax_units_within_families (person : list Person.row) : Prop :=
  ∀ p q, p ∈ person → q ∈ person →
    Person.TAX_ID p = Person.TAX_ID q → person_family_id p = person_family_id q.

(** A tax unit with two members in one family, listed last first. *)
Definition household_raw : RawTables :=
  mkRaw
    [ example_person 1 2 1 7 1 250 41 0 0;
      example_person 1 1 1 7 1 150 40 0 0;
      example_person 2 1 1 9 2 100 30 0 0 ]
    [ TaxUnit.mk 7; TaxUnit.mk 9 ]
    [ Family.mk 1 1 1000; Family.mk 2 1 3000 ]
    [ example_spm_unit 1 500 0; example_spm_unit 2 600 0 ]
    [ Household.mk 1 700 6; Household.mk 2 800 36 ].

(** The five passes [generate] runs on the open file, in its order. *)
Inductive pass : Type :=
| IdVariables | PersonalVariables | PersonalIncomeVariables | SpmVariables
| HouseholdVariables.

(** Passes can be told apart. *)
Global Instance pass_eq_dec : EqDecision pass.
Proof. solve_decision. Defined.

(** The call [generate] makes for a pass. *)
Definition run_pass (raw : RawTables) (draws : nat → Q) (p : pass)
  : M h5file unit :=
  match p with
  | IdVariables =>
      add_id_variables (person raw) (tax_unit raw) (family raw) (spm_unit raw)
        (household raw)
  | PersonalVariables => add_personal_variables draws (person raw)
  | PersonalIncomeVariables => add_personal_income_variables (person raw)
  | SpmVariables => add_spm_variables (spm_unit raw)
  | HouseholdVariables => add_household_variables (household raw)
  end.

(** The names a pass binds, in the order it binds them. *)
Definition pass_names (p : pass) : list string :=
  match p with
  | IdVariables => id_names
  | PersonalVariables => ["age"]
  | PersonalIncomeVariables => income_names
  | SpmVariables => spm_names
  | HouseholdVariables => ["fips"]
  end.

(** A statement sequence that never unbinds or rebinds a name. *)
Definition append_only {A} (m : M h5file A) : Prop := ∀ f, f ⊆ (m f).2.

(** What a pass after the first leaves in the file when its names are
    fresh. *)
Definition pass_result (raw : RawTables) (draws : nat → Q) (p : pass)
    (f : h5file) : h5file :=
  match p with
  | IdVariables => f
  | PersonalVariables => <["age" := ColFloat (age_column draws (person raw))]> f
  | PersonalIncomeVariables => with_personal_income (person raw) f
  | SpmVariables => with_spm (spm_unit raw) f
  | HouseholdVariables =>
      <["fips" := ColInt (map Household.GESTFIPS (household raw))]> f
  end.

(** A chain of assignments as the list of its pairs, last written first. *)
Definition write_all (l : list (string * column)) (f : h5file) : h5file :=
  foldr (fun kv m => <[kv.1 := kv.2]> m) f l.

(** ** Formula helpers of the rule engine *)

(** [x < y] on floats, as a mask entry. *)
Definition Qltb (x y : Q) : bool := negb (Qle_bool y x).

(** [select(condlist, choicelist)] at one position: the choice of the
    first condition that holds there, [otherwise] when none does. *)
Fixpoint select_at {A} (conds : list bool) (choices : list A) (otherwise : A) : A :=
  match conds, choices with
  | c :: conds', x :: choices' =>
      if c then x else select_at conds' choices' otherwise
  | _, _ => otherwise
  end.

(** [select(condlist, choicelist)] over [n] positions; a scalar
    condition is the column that repeats it. *)
Definition select {A} (n : nat) (condlist : list (list bool))
    (choicelist : list A) (otherwise : A) : list A :=
  map (fun i =>
         select_at (map (fun c => default false (c !! i)) condlist)
           choicelist otherwise)
    (seq 0 n).

(** A numpy array of the rule engine: of booleans or of floats. *)
Inductive ndarray : Type :=
| BoolArray (xs : list bool)
| FloatArray (xs : list Q).

(** [a & b]: the element-wise conjunction of two boolean arrays.  numpy
    has no [bitwise_and] for an array of floats and raises
    [TypeError]. *)
Definition np_and (a b : ndarray) : result ndarray :=
  match a, b with
  | BoolArray xs, BoolArray ys => Ok (BoolArray (zip_with andb xs ys))
  | _, _ => Err (TypeError "bitwise_and")
  end.

(** A condition of [select], as the mask it is taken for. *)
Definition as_mask (a : ndarray) : list bool :=
  match a with
  | BoolArray xs => xs
  | FloatArray xs => map (fun x => negb (Qeq_bool x 0)) xs
  end.

(** [node[keys]], a parameter node indexed by an array of keys: the
    engine builds the vector of the leaves, of dtype [float] whatever
    the leaves are, and selects from it. *)
Definition parameter_lookup (node : string → bool) (keys : list string)
  : ndarray :=
  FloatArray (map (fun k => if node k then 1 else 0)%Q keys).

(** ** [medicaid_person_type] *)

Module Medicaid.

Inductive MedicaidPersonType : Type :=
| ADULT_WITHOUT_DEPENDENT
| ADULT_WITH_DEPENDENT
| PREGNANT
| CHILD_AGE_0
| CHILD_AGE_1_5
| CHILD_AGE_6_18
| CHILD_AGE_19_20.

(** What the formula asks of one person: the age, the SPM unit the
    person is a member of, and the state code of the household. *)
Record person_row : Type := mk {
  age : Q;
  spm_unit : Z;
  state_code_str : string
}.

(** [person.spm_unit.any(flags)]: for every person, whether the flag
    holds of some member of the person's SPM unit. *)
Definition spm_unit_any (persons : list person_row) (flags : list bool)
  : list bool :=
  map (fun p =>
         existsb (fun qf => Z.eqb (spm_unit qf.1) (spm_unit p) && qf.2)
           (zip persons flags))
    persons.

(** The formula; [under_21_qualifies] is the parameter
    [hhs.medicaid.under_21_qualifies_as_child], by state.  The
    conditions are built in the order of the list, before [select] is
    called. *)
Definition medicaid_person_type (under_21_qualifies : string → bool)
    (persons : list person_row) : result (list MedicaidPersonType) :=
  let age := map age persons in
  let has_dependents :=
    spm_unit_any persons (map (fun a => Qltb a 19) age) in
  let state := map state_code_str persons in
  let state_has_under_21_child_category :=
    parameter_lookup under_21_qualifies state in
  match np_and (BoolArray (map (fun a => Qltb a 21) age))
          state_has_under_21_child_category with
  | Err e => Err e
  | Ok under_21_child =>
      Ok (select (length persons)
            [ map (fun a => Qeq_bool a 0) age;
              map (fun a => Qltb a 6) age;
              map (fun a => Qltb a 19) age;
              as_mask under_21_child;
              has_dependents;
              replicate (length persons) true ]
            [ CHILD_AGE_0; CHILD_AGE_1_5; CHILD_AGE_6_18; CHILD_AGE_19_20;
              ADULT_WITH_DEPENDENT; ADULT_WITHOUT_DEPENDENT ]
            ADULT_WITHOUT_DEPENDENT)
  end.

End Medicaid.

(** Two persons of one SPM unit, aged 30 and 5. *)
Definition medicaid_example_persons : list Medicaid.person_row :=
  [ Medicaid.mk 30 1 "CA"; Medicaid.mk 5 1 "CA" ].

(** ** [co_chp_urgent_care_saving] *)

Module CoChp.

(** What the formula asks of one person. *)
Record person_row : Type := mk {
  medicaid_income_level : Q;
  is_pregnant : bool;
  urgent_care_expense : Q
}.

(** The formula; [calc] is [p.calc], the copay schedule
    [gov.states.co.hcpf.chp.copays.urgent_care] as a function of the
    income level. *)
Definition co_chp_urgent_care_saving (calc : Q → Q) (persons : list person_row)
  : list Q :=
  let income_level := map medicaid_income_level persons in
  let is_pregnant := map is_pregnant persons in
  let copay :=
    np_where is_pregnant (replicate (length persons) 0%Q)
      (map calc income_level) in
  let expense := map urgent_care_expense persons in
  map (Qmax 0) (zip_with Qminus expense copay).

End CoChp.

(** ** [ne_itemized_deductions] *)

Module NeItemized.

(** The tax units of the period as the formula reads them:
    [tax_unit("tax_unit_itemizes", period)],
    [tax_unit("filing_status", period)] and, for [add], the column of
    any variable by its name. *)
Record tax_units (FilingStatus : Type) : Type := mk {
  count : nat;
  tax_unit_itemizes : list bool;
  filing_status : list FilingStatus;
  variable : string → list Q
}.
Arguments count {FilingStatus}.
Arguments tax_unit_itemizes {FilingStatus}.
Arguments filing_status {FilingStatus}.
Arguments variable {FilingStatus}.

(** [parameters(period).gov.irs.deductions], as far as the formula
    reads it. *)
Record deductions (FilingStatus : Type) : Type := mkDeductions {
  itemized_deductions : list string;
  salt_and_real_estate_cap : FilingStatus → Q
}.
Arguments itemized_deductions {FilingStatus}.
Arguments salt_and_real_estate_cap {FilingStatus}.

(** [add(tax_unit, period, names)]: the named columns summed entry by
    entry, from 0, in the order of the names. *)
Definition add {FilingStatus} (tax_unit : tax_units FilingStatus)
    (names : list string) : list Q :=
  foldl (fun total name => zip_with Qplus total (variable tax_unit name))
    (replicate (count tax_unit) 0%Q) names.

(** The [formula] of the variable (lines 16-32). *)
Definition ne_itemized_deductions {FilingStatus}
    (tax_unit : tax_units FilingStatus) (p : deductions FilingStatus) : list Q :=
  let itemizing := tax_unit_itemizes tax_unit in
  (* calculate US itemized deductions less state non-property taxes *)
  let items :=
    filter (fun deduction => deduction ∉ ["salt_deduction"])
      (itemized_deductions p) in
  let us_itm_deds_less_salt := add tax_unit items in
  let filing_status := filing_status tax_unit in
  let capped_property_taxes :=
    zip_with Qmin (add tax_unit ["real_estate_taxes"])
      (map (salt_and_real_estate_cap p) filing_status) in
  let ne_itm_deds :=
    zip_with Qplus us_itm_deds_less_salt capped_property_taxes in
  zip_with (fun b x => (if b : bool then 1 else 0) * x)%Q itemizing ne_itm_deds.

(** The variable, with its [defined_for = StateCode.NE]: the engine
    gives it the value of the formula for the tax units of Nebraska
    ([in_ne], one flag per tax unit) and 0 for the others. *)
Definition ne_itemized_deductions_variable {FilingStatus}
    (in_ne : list bool) (tax_unit : tax_units FilingStatus)
    (p : deductions FilingStatus) : list Q :=
  np_where in_ne (ne_itemized_deductions tax_unit p)
    (replicate (count tax_unit) 0%Q).

End NeItemized.

(** Three tax units; the first two itemize. *)
Definition ne_example_units : NeItemized.tax_units bool :=
  NeItemized.mk bool 3 [true; true; false] [true; true; false]
    (fun name =>
       if String.eqb name "charitable_deduction" then [100; 100; 50]
       else if String.eqb name "real_estate_taxes" then [30000; 30000; 10]
       else if String.eqb name "salt_deduction" then [7; 7; 7]
       else [0; 0; 0])%Q.

(** The first and the third are in Nebraska. *)
Definition ne_example_in_ne : list bool := [true; false; true].

(** Two itemized deductions, and a cap by filing status. *)
Definition ne_example_deductions : NeItemized.deductions bool :=
  NeItemized.mkDeductions bool ["salt_deduction"; "charitable_deduction"]
    (fun status => if status : bool then 10000 else 5000)%Q.

(** * Machine numbers: wrap-around and rounding *)

Lemma wrap64_range z : - 2 ^ 63 ≤ wrap64 z < 2 ^ 63.
Proof.
  unfold wrap64. change (2 ^ 64) with (2 * 2 ^ 63).
  pose proof (Z.mod_pos_bound (z + 2 ^ 63) (2 * 2 ^ 63) ltac:(done)). lia.
Qed.

Lemma wrap64_small z : - 2 ^ 63 ≤ z < 2 ^ 63 → wrap64 z = z.
Proof.
  intros Hz. unfold wrap64. change (2 ^ 64) with (2 * 2 ^ 63).
  rewrite Z.mod_small; lia.
Qed.

Lemma wrap64_congruent z : ∃ k, wrap64 z = z + k * 2 ^ 64.
Proof.
  exists (- ((z + 2 ^ 63) `div` 2 ^ 64)). unfold wrap64.
  rewrite Z.mod_eq by done. lia.
Qed.

Lemma wrap64_add_l a b : wrap64 (wrap64 a + b) = wrap64 (a + b).
Proof.
  destruct (wrap64_congruent a) as [k ->]. unfold wrap64. f_equal.
  replace (a + k * 2 ^ 64 + b + 2 ^ 63) with (a + b + 2 ^ 63 + k * 2 ^ 64) by lia.
  apply Z.mod_add. done.
Qed.

Section Binary64.
Local Open Scope Q_scope.

Lemma rne_cases x :
  (rne x = Qfloor x ∧ x - inject_Z (Qfloor x) <= 1 # 2) ∨
  (rne x = (Qfloor x + 1)%Z ∧ 1 # 2 <= x - inject_Z (Qfloor x)).
Proof.
  unfold rne. destruct (Qcompare_spec (x - inject_Z (Qfloor x)) (1 # 2)) as [H | H | H].
  - destruct (Z.even (Qfloor x)); [left | right]; split; try done; rewrite H; lra.
  - left. split; [done | lra].
  - right. split; [done | lra].
Qed.

Lemma rne_error x : Qabs (inject_Z (rne x) - x) <= 1 # 2.
Proof.
  pose proof (Qfloor_le x) as Hlo. pose proof (Qlt_floor x) as Hhi.
  rewrite inject_Z_plus in Hhi. change (inject_Z 1) with 1 in Hhi.
  apply Qabs_Qle_condition.
  destruct (rne_cases x) as [[-> H] | [-> H]];
    [| rewrite inject_Z_plus; change (inject_Z 1) with 1];
    split; lra.
Qed.

Lemma rne_ge x k : inject_Z k <= x → (k ≤ rne x)%Z.
Proof.
  intros H. apply Qfloor_resp_le in H. rewrite Qfloor_Z in H.
  destruct (rne_cases x) as [[-> _] | [-> _]]; lia.
Qed.

Lemma rne_le x k : x <= inject_Z k → (rne x ≤ k)%Z.
Proof.
  intros H. pose proof (Qfloor_le x) as Hlo.
  assert (Qfloor x ≤ k)%Z as Hf.
  { apply Qfloor_resp_le in H. by rewrite Qfloor_Z in H. }
  destruct (rne_cases x) as [[-> _] | [-> Hhalf]]; [done |].
  destruct (decide (Qfloor x = k)) as [Heq | ?]; [| lia].
  rewrite Heq in Hhalf. lra.
Qed.

Lemma pow2_pos e : 0 < 2 ^ e.
Proof. by apply Qpower_0_lt. Qed.

Lemma pow2_succ e : 2 ^ (e + 1) == 2 * 2 ^ e.
Proof. rewrite Qpower_plus by done. change (2 ^ 1) with 2. lra. Qed.

Lemma pow2_pred e : 2 * 2 ^ (e - 1) == 2 ^ e.
Proof. rewrite <- pow2_succ. by replace (e - 1 + 1)%Z with e by lia. Qed.

Lemma pow2_log2 n : (0 < n)%Z →
  2 ^ Z.log2 n <= inject_Z n ∧ inject_Z n < 2 * 2 ^ Z.log2 n.
Proof.
  intros Hn. destruct (Z.log2_spec n Hn) as [Hlo Hhi].
  pose proof (Z.log2_nonneg n) as Hnn.
  rewrite <- pow2_succ.
  change 2 with (inject_Z 2). rewrite <- !Zpower_Qpower by lia.
  rewrite <- Zle_Qle, <- Zlt_Qlt. split; [done |].
  by rewrite <- Z.add_1_r in Hhi.
Qed.

Lemma floor_log2_spec q :
  0 < q → 2 ^ floor_log2 q <= q ∧ q < 2 ^ (floor_log2 q + 1).
Proof.
  intros Hq. destruct q as [n d].
  assert (0 < n)%Z as Hn by (unfold Qlt in Hq; simpl in Hq; lia).
  unfold floor_log2. cbn [Qnum Qden].
  destruct (pow2_log2 n Hn) as [Hn1 Hn2].
  destruct (pow2_log2 (Z.pos d) ltac:(done)) as [Hd1 Hd2].
  pose proof (Qmake_Qdiv n d) as Hq'.
  set (a := Z.log2 n) in *. set (b := Z.log2 (Z.pos d)) in *.
  pose proof (pow2_pos a) as Ha. pose proof (pow2_pos b) as Hb.
  pose proof (pow2_pos (a - b)) as Hc.
  assert (2 ^ (a - b) * 2 ^ b == 2 ^ a) as Hab.
  { rewrite <- Qpower_plus by done. by replace (a - b + b)%Z with a by lia. }
  assert ((n # d) * inject_Z (Z.pos d) == inject_Z n) as Hmul.
  { rewrite Hq'. field. intros H. rewrite H in Hd1. lra. }
  set (q := n # d) in *. clearbody q.
  set (N := inject_Z n) in *. set (D := inject_Z (Z.pos d)) in *.
  clearbody N D. clear Hq'.
  destruct (Qle_bool (2 ^ (a - b)) q) eqn:Hle.
  - apply Qle_bool_iff in Hle. split; [done |].
    rewrite pow2_succ. set (T := 2 ^ (a - b)) in *. clearbody T.
    set (X := 2 ^ a) in *. set (Y := 2 ^ b) in *. clearbody X Y.
    apply Qnot_le_lt. intros Hge. nra.
  - assert (q < 2 ^ (a - b)) as Hlt.
    { apply Qnot_le_lt. intros H. apply Qle_bool_iff in H. congruence. }
    replace (a - b - 1 + 1)%Z with (a - b)%Z by lia. split; [| done].
    pose proof (pow2_pred (a - b)) as Hpred.
    pose proof (pow2_pos (a - b - 1)) as Hp.
    set (T := 2 ^ (a - b)) in *. set (T' := 2 ^ (a - b - 1)) in *.
    clearbody T T'.
    set (X := 2 ^ a) in *. set (Y := 2 ^ b) in *. clearbody X Y.
    apply Qnot_lt_le. intros Hge. nra.
Qed.


Lemma Qabs_pos_iff q : ¬ q == 0 ↔ 0 < Qabs q.
Proof.
  split.
  - intros Hq. destruct (Qlt_le_dec 0 (Qabs q)) as [| Hle]; [done |].
    exfalso. apply Hq. pose proof (Qabs_nonneg q).
    apply Qabs_Qle_condition in Hle. lra.
  - intros Hpos Hq. rewrite Hq in Hpos. by apply Qlt_irrefl in Hpos.
Qed.

(** The exponent of a number that is not 0: that of its binade, but
    not under that of the subnormal numbers. *)
Lemma exponent_spec q :
  ¬ q == 0 →
  ∃ fl, exponent q = Z.max (fl - 52) (-1074) ∧
        2 ^ fl <= Qabs q ∧ Qabs q < 2 ^ (fl + 1).
Proof.
  intros Hq%Qabs_pos_iff. exists (floor_log2 (Qabs q)).
  split; [done |]. by apply floor_log2_spec.
Qed.

Lemma round64_zero q : q == 0 → round64 q = 0.
Proof. intros Hq%Qeq_bool_iff. unfold round64. by rewrite Hq. Qed.

Lemma round64_eq q :
  ¬ q == 0 →
  round64 q == inject_Z (rne (q / 2 ^ exponent q)) * 2 ^ exponent q.
Proof.
  intros Hq. unfold round64.
  destruct (Qeq_bool q 0) eqn:H0; [by apply Qeq_bool_iff in H0 |].
  apply Qred_correct.
Qed.

Lemma scaled_back q e : q / 2 ^ e * 2 ^ e == q.
Proof. field. pose proof (pow2_pos e). lra. Qed.

(** Rounding moves a number by half a unit in the last place at most. *)
Lemma round64_error q :
  ¬ q == 0 → Qabs (round64 q - q) <= 2 ^ exponent q * (1 # 2).
Proof.
  intros Hq. rewrite (round64_eq q Hq).
  pose proof (rne_error (q / 2 ^ exponent q)) as Herr.
  pose proof (scaled_back q (exponent q)) as Hback.
  pose proof (pow2_pos (exponent q)) as Hpos.
  set (x := q / 2 ^ exponent q) in *. set (P := 2 ^ exponent q) in *.
  set (m := inject_Z (rne x)) in *. clearbody x P m.
  apply Qabs_Qle_condition in Herr as [Hlo Hhi].
  apply Qabs_Qle_condition. split; nra.
Qed.

Lemma round64_nonneg q : 0 <= q → 0 <= round64 q.
Proof.
  intros Hq. destruct (Qeq_dec q 0) as [H0 | H0].
  - by rewrite (round64_zero q H0).
  - rewrite (round64_eq q H0).
    pose proof (pow2_pos (exponent q)) as Hpos.
    assert (0 ≤ rne (q / 2 ^ exponent q))%Z as Hm.
    { apply rne_ge. change (inject_Z 0) with 0.
      apply Qle_shift_div_l; [done | lra]. }
    rewrite Zle_Qle in Hm. change (inject_Z 0) with 0 in Hm. nra.
Qed.

Lemma round64_nonpos q : q <= 0 → round64 q <= 0.
Proof.
  intros Hq. destruct (Qeq_dec q 0) as [H0 | H0].
  - by rewrite (round64_zero q H0).
  - rewrite (round64_eq q H0).
    pose proof (pow2_pos (exponent q)) as Hpos.
    assert (rne (q / 2 ^ exponent q) ≤ 0)%Z as Hm.
    { apply rne_le. change (inject_Z 0) with 0.
      apply Qle_shift_div_r; [done | lra]. }
    rewrite Zle_Qle in Hm. change (inject_Z 0) with 0 in Hm. nra.
Qed.

(** A number under [2 ^ (j + 1)] in magnitude is moved by
    [2 ^ (j - 53)] at most. *)
Lemma round64_abs_error q j :
  Qabs q < 2 ^ (j + 1) → (-1022 ≤ j)%Z →
  Qabs (round64 q - q) <= 2 ^ (j - 53).
Proof.
  intros Hlt Hj. destruct (Qeq_dec q 0) as [H0 | H0].
  - rewrite (round64_zero q H0), H0. pose proof (pow2_pos (j - 53)).
    apply Qabs_Qle_condition. split; lra.
  - destruct (exponent_spec q H0) as (fl & He & Hlo & Hhi).
    assert (fl < j + 1)%Z as Hfl.
    { apply (Qpower_lt_compat_l_inv 2); [lra | done]. }
    eapply Qle_trans; [by apply round64_error |].
    assert (2 ^ exponent q * (1 # 2) == 2 ^ (exponent q - 1)) as ->.
    { pose proof (pow2_pred (exponent q)). lra. }
    apply Qpower_le_compat_l; [lia | done].
Qed.

(** A number in the range of the normal numbers is moved by
    [2 ^ (-53)] of its magnitude at most. *)
Lemma round64_rel_error q :
  2 ^ (-1022) <= Qabs q → Qabs (round64 q - q) <= Qabs q * 2 ^ (-53).
Proof.
  intros Hnormal.
  assert (¬ q == 0) as H0.
  { apply Qabs_pos_iff. pose proof (pow2_pos (-1022)). lra. }
  destruct (exponent_spec q H0) as (fl & He & Hlo & Hhi).
  assert (-1022 < fl + 1)%Z as Hfl.
  { apply (Qpower_lt_compat_l_inv 2); [lra | done]. }
  eapply Qle_trans; [by apply round64_error |].
  rewrite He, Z.max_l by lia.
  assert (2 ^ (fl - 52) * (1 # 2) == 2 ^ fl * 2 ^ (-53)) as ->.
  { rewrite <- Qpower_plus by done.
    pose proof (pow2_pred (fl - 52)) as Hp.
    replace (fl + -53)%Z with (fl - 52 - 1)%Z by lia. lra. }
  pose proof (pow2_pos (-53)). nra.
Qed.

Lemma scale_int k e :
  (e ≤ 0)%Z → inject_Z (k * 2 ^ (- e)) == inject_Z k / 2 ^ e.
Proof.
  intros He. rewrite inject_Z_mult, Zpower_Qpower by lia.
  change (inject_Z 2) with 2. rewrite Qpower_opp. reflexivity.
Qed.

Lemma exponent_pos q :
  ¬ q == 0 → (0 < exponent q)%Z → 2 ^ (exponent q + 52) <= Qabs q.
Proof.
  intros H0 Hpos. destruct (exponent_spec q H0) as (fl & He & Hlo & _).
  rewrite He in Hpos |- *.
  by replace (Z.max (fl - 52) (-1074) + 52)%Z with fl by lia.
Qed.

(** Rounding does not cross an integer of 53 bits. *)
Lemma round64_int_ge q k :
  (Z.abs k ≤ 2 ^ 53)%Z → inject_Z k <= q → inject_Z k <= round64 q.
Proof.
  intros Hk Hq. destruct (Qeq_dec q 0) as [H0 | H0].
  { rewrite (round64_zero q H0). by rewrite H0 in Hq. }
  rewrite (round64_eq q H0).
  pose proof (pow2_pos (exponent q)) as Hpos.
  pose proof (scaled_back q (exponent q)) as Hback.
  destruct (Z_le_gt_dec (exponent q) 0) as [He | He].
  - pose proof (scale_int k _ He) as Hscale.
    pose proof (scaled_back (inject_Z k) (exponent q)) as Hkback.
    assert (k * 2 ^ (- exponent q) ≤ rne (q / 2 ^ exponent q))%Z as Hm.
    { apply rne_ge. rewrite Hscale.
      apply Qmult_le_compat_r; [done |]. apply Qinv_le_0_compat. lra. }
    rewrite Zle_Qle, Hscale in Hm.
    set (x := q / 2 ^ exponent q) in *. set (P := 2 ^ exponent q) in *.
    set (m := inject_Z (rne x)) in *. set (y := inject_Z k / P) in *.
    clearbody x P m y. nra.
  - pose proof (exponent_pos q H0 ltac:(lia)) as Hbig.
    assert (2 ^ 53 <= 2 ^ (exponent q + 52)) as H53.
    { apply Qpower_le_compat_l; [lia | done]. }
    assert (inject_Z k <= 2 ^ 53) as Hk1.
    { change 2 with (inject_Z 2). rewrite <- Zpower_Qpower by done.
      rewrite <- Zle_Qle. lia. }
    assert (- 2 ^ 53 <= inject_Z k) as Hk2.
    { change 2 with (inject_Z 2). rewrite <- Zpower_Qpower by done.
      rewrite <- inject_Z_opp, <- Zle_Qle. lia. }
    assert (2 ^ (exponent q + 52) == 2 ^ 52 * 2 ^ exponent q) as Hsplit.
    { rewrite <- Qpower_plus by done. by rewrite Z.add_comm. }
    destruct (Qlt_le_dec 0 q) as [Hqpos | Hqneg].
    + rewrite Qabs_pos in Hbig by lra.
      assert (2 ^ 52 ≤ rne (q / 2 ^ exponent q))%Z as Hm.
      { apply rne_ge. rewrite Zpower_Qpower by done.
        change (inject_Z 2) with 2.
        apply Qle_shift_div_l; [done |]. by rewrite <- Hsplit. }
      rewrite Zle_Qle, Zpower_Qpower in Hm by done.
      change (inject_Z 2) with 2 in Hm.
      set (x := q / 2 ^ exponent q) in *. set (P := 2 ^ exponent q) in *.
      set (m := inject_Z (rne x)) in *. clearbody x P m.
      rewrite Hsplit in H53, Hbig.
      set (A := 2 ^ 52) in *. set (B := 2 ^ 53) in *. clearbody A B. nra.
    + rewrite Qabs_neg in Hbig by done.
      assert (exponent q = 1%Z) as He1.
      { assert (2 ^ (exponent q + 52) <= 2 ^ 53) as Hle by lra.
        apply Qpower_le_compat_l_inv in Hle; [lia | lra]. }
      rewrite He1 in *. change (2 ^ (1 + 52)) with (2 ^ 53) in *.
      assert (- 2 ^ 52 ≤ rne (q / 2 ^ 1))%Z as Hm.
      { apply rne_ge. rewrite inject_Z_opp, Zpower_Qpower by done.
        change (inject_Z 2) with 2.
        apply Qle_shift_div_l; [done |].
        assert (- 2 ^ 52 * 2 ^ 1 == - 2 ^ 53) as -> by reflexivity. lra. }
      rewrite Zle_Qle, inject_Z_opp, Zpower_Qpower in Hm by done.
      change (inject_Z 2) with 2 in Hm.
      assert (2 ^ 52 * 2 ^ 1 == 2 ^ 53) as H2 by reflexivity.
      set (m := inject_Z (rne (q / 2 ^ 1))) in *. clearbody m.
      set (P := 2 ^ 1) in *. set (A := 2 ^ 52) in *. set (B := 2 ^ 53) in *.
      clearbody P A B. nra.
Qed.


Lemma round64_int_le q k :
  (Z.abs k ≤ 2 ^ 53)%Z → q <= inject_Z k → round64 q <= inject_Z k.
Proof.
  intros Hk Hq. destruct (Qeq_dec q 0) as [H0 | H0].
  { rewrite (round64_zero q H0). by rewrite H0 in Hq. }
  rewrite (round64_eq q H0).
  pose proof (pow2_pos (exponent q)) as Hpos.
  pose proof (scaled_back q (exponent q)) as Hback.
  destruct (Z_le_gt_dec (exponent q) 0) as [He | He].
  - pose proof (scale_int k _ He) as Hscale.
    pose proof (scaled_back (inject_Z k) (exponent q)) as Hkback.
    assert (rne (q / 2 ^ exponent q) ≤ k * 2 ^ (- exponent q))%Z as Hm.
    { apply rne_le. rewrite Hscale.
      apply Qmult_le_compat_r; [done |]. apply Qinv_le_0_compat. lra. }
    rewrite Zle_Qle, Hscale in Hm.
    set (x := q / 2 ^ exponent q) in *. set (P := 2 ^ exponent q) in *.
    set (m := inject_Z (rne x)) in *. set (y := inject_Z k / P) in *.
    clearbody x P m y. nra.
  - pose proof (exponent_pos q H0 ltac:(lia)) as Hbig.
    assert (2 ^ 53 <= 2 ^ (exponent q + 52)) as H53.
    { apply Qpower_le_compat_l; [lia | done]. }
    assert (inject_Z k <= 2 ^ 53) as Hk1.
    { change 2 with (inject_Z 2). rewrite <- Zpower_Qpower by done.
      rewrite <- Zle_Qle. lia. }
    assert (- 2 ^ 53 <= inject_Z k) as Hk2.
    { change 2 with (inject_Z 2). rewrite <- Zpower_Qpower by done.
      rewrite <- inject_Z_opp, <- Zle_Qle. lia. }
    assert (2 ^ (exponent q + 52) == 2 ^ 52 * 2 ^ exponent q) as Hsplit.
    { rewrite <- Qpower_plus by done. by rewrite Z.add_comm. }
    destruct (Qlt_le_dec q 0) as [Hqneg | Hqpos].
    + rewrite Qabs_neg in Hbig by lra.
      assert (rne (q / 2 ^ exponent q) ≤ - 2 ^ 52)%Z as Hm.
      { apply rne_le. rewrite inject_Z_opp, Zpower_Qpower by done.
        change (inject_Z 2) with 2.
        apply Qle_shift_div_r; [done |]. rewrite Hsplit in Hbig. lra. }
      rewrite Zle_Qle, inject_Z_opp, Zpower_Qpower in Hm by done.
      change (inject_Z 2) with 2 in Hm.
      set (x := q / 2 ^ exponent q) in *. set (P := 2 ^ exponent q) in *.
      set (m := inject_Z (rne x)) in *. clearbody x P m.
      rewrite Hsplit in H53, Hbig.
      set (A := 2 ^ 52) in *. set (B := 2 ^ 53) in *. clearbody A B. nra.
    + rewrite Qabs_pos in Hbig by done.
      assert (exponent q = 1%Z) as He1.
      { assert (2 ^ (exponent q + 52) <= 2 ^ 53) as Hle by lra.
        apply Qpower_le_compat_l_inv in Hle; [lia | lra]. }
      rewrite He1 in *. change (2 ^ (1 + 52)) with (2 ^ 53) in *.
      assert (rne (q / 2 ^ 1) ≤ 2 ^ 52)%Z as Hm.
      { apply rne_le. rewrite Zpower_Qpower by done.
        change (inject_Z 2) with 2.
        apply Qle_shift_div_r; [done |].
        assert (2 ^ 52 * 2 ^ 1 == 2 ^ 53) as -> by reflexivity. lra. }
      rewrite Zle_Qle, Zpower_Qpower in Hm by done.
      change (inject_Z 2) with 2 in Hm.
      assert (2 ^ 52 * 2 ^ 1 == 2 ^ 53) as H2 by reflexivity.
      set (m := inject_Z (rne (q / 2 ^ 1))) in *. clearbody m.
      set (P := 2 ^ 1) in *. set (A := 2 ^ 52) in *. set (B := 2 ^ 53) in *.
      clearbody P A B. nra.
Qed.

(** Every float is a reduced fraction. *)
Lemma round64_reduced q : Qred (round64 q) = round64 q.
Proof.
  unfold round64. destruct (Qeq_bool q 0); [done |].
  apply Qcanon.Qred_involutive.
Qed.

(** An integer of 53 bits is a float. *)
Lemma float_of_int_exact k :
  (Z.abs k ≤ 2 ^ 53)%Z → float_of_int k = inject_Z k.
Proof.
  intros Hk. unfold float_of_int.
  rewrite <- round64_reduced.
  transitivity (Qred (inject_Z k)); [| apply inject_Z_Qred].
  apply Qred_complete, Qle_antisym.
  - apply round64_int_le; [done | apply Qle_refl].
  - apply round64_int_ge; [done | apply Qle_refl].
Qed.

Lemma div100_nonneg x : (0 ≤ x)%Z → 0 <= div100 x.
Proof.
  intros Hx. unfold div100, fdiv, float_of_int.
  apply round64_nonneg.
  assert (0 <= round64 (inject_Z x)) as H.
  { apply round64_nonneg. by rewrite (Zle_Qle 0 x) in Hx. }
  apply Qle_shift_div_l; lra.
Qed.

Lemma Qabs_inject_Z_ge_1 x : x ≠ 0%Z → 1 <= Qabs (inject_Z x).
Proof.
  intros Hx. change (Qabs (inject_Z x)) with (inject_Z (Z.abs x)).
  change 1 with (inject_Z 1). rewrite <- Zle_Qle. lia.
Qed.

(** The quotient is [x / 100] to two roundings. *)
Lemma div100_error x :
  Qabs (div100 x - inject_Z x / 100) <= Qabs (inject_Z x / 100) * 2 ^ (-51).
Proof.
  destruct (decide (x = 0%Z)) as [-> | Hx].
  { vm_compute. discriminate. }
  pose proof (Qabs_inject_Z_ge_1 x Hx) as Hx1.
  assert (2 ^ (-1022) <= 1) as Hmin.
  { change 1 with (2 ^ 0). by apply Qpower_le_compat_l. }
  pose proof (round64_rel_error (inject_Z x) ltac:(lra)) as Ha.
  fold (float_of_int x) in Ha.
  assert (1 <= Qabs (float_of_int x)) as Ha1.
  { unfold float_of_int.
    destruct (Z_lt_le_dec 0 x) as [Hpos | Hneg].
    - rewrite Qabs_pos.
      + apply (round64_int_ge _ 1); [done |].
        change 1 with (inject_Z 1). rewrite <- Zle_Qle. lia.
      + apply round64_nonneg. change 0 with (inject_Z 0).
        rewrite <- Zle_Qle. lia.
    - rewrite Qabs_neg.
      + assert (round64 (inject_Z x) <= inject_Z (-1)) as H.
        { apply round64_int_le; [done |]. rewrite <- Zle_Qle. lia. }
        change (inject_Z (-1)) with (-1) in H. lra.
      + apply round64_nonpos. change 0 with (inject_Z 0).
        rewrite <- Zle_Qle. lia. }
  assert (Qabs (float_of_int x / 100) == Qabs (float_of_int x) / 100) as Habs.
  { unfold Qdiv. by rewrite Qabs_Qmult. }
  assert (Qabs (inject_Z x / 100) == Qabs (inject_Z x) / 100) as Habs'.
  { unfold Qdiv. by rewrite Qabs_Qmult. }
  pose proof (round64_rel_error (float_of_int x / 100)) as Hw.
  rewrite Habs in Hw.
  assert (2 ^ (-1022) <= Qabs (float_of_int x) / 100) as Hnormal.
  { apply Qle_shift_div_l; [done |].
    assert (2 ^ (-1022) * 100 <= 1) by (vm_compute; discriminate). lra. }
  specialize (Hw Hnormal). fold (fdiv (float_of_int x) 100) in Hw.
  fold (div100 x) in Hw.
  rewrite Habs'.
  assert (2 ^ (-53) * (2 + 2 ^ (-53)) <= 2 ^ (-51)) as Hc
    by (vm_compute; discriminate).
  pose proof (pow2_pos (-53)) as H53.
  assert (2 ^ (-53) <= 1 # 2) as Hhalf by (vm_compute; discriminate).
  set (a := float_of_int x) in *. set (w := div100 x) in *.
  set (z := inject_Z x) in *. clearbody a w z.
  set (u := 2 ^ (-53)) in *. set (v := 2 ^ (-51)) in *. clearbody u v.
  clear Hmin Hnormal Habs Habs'.
  unfold Qdiv in *. change (/ 100) with (1 # 100) in *.
  assert (Qabs a <= Qabs z + Qabs z * u) as HA.
  { assert (a == z + (a - z)) as -> by ring.
    eapply Qle_trans; [apply Qabs_triangle |]. lra. }
  assert (Qabs (w - z * (1 # 100))
          <= Qabs (w - a * (1 # 100)) + Qabs (a - z) * (1 # 100)) as HG.
  { assert (w - z * (1 # 100) == (w - a * (1 # 100)) + (a - z) * (1 # 100))
      as -> by ring.
    eapply Qle_trans; [apply Qabs_triangle |].
    rewrite (Qabs_Qmult (a - z)). change (Qabs (1 # 100)) with (1 # 100). lra. }
  pose proof (Qabs_nonneg z) as Hz0.
  assert (Qabs a * u <= (Qabs z + Qabs z * u) * u) as HAu.
  { apply Qmult_le_compat_r; lra. }
  assert (Qabs z * (u * (2 + u)) <= Qabs z * v) as Hzv.
  { rewrite !(Qmult_comm (Qabs z)). apply Qmult_le_compat_r; lra. }
  set (Za := Qabs z) in *. set (Aa := Qabs a) in *.
  set (E1 := Qabs (a - z)) in *. set (E2 := Qabs (w - a * (1 # 100))) in *.
  set (G := Qabs (w - z * (1 # 100))) in *. clearbody Za Aa E1 E2 G.
  lra.
Qed.

(** [80 + 5 * u] for a draw in [0, 1). *)
Lemma top_coded_age_range u :
  0 <= u → u < 1 →
  80 <= fadd 80 (fmul 5 u) ∧ fadd 80 (fmul 5 u) <= 85.
Proof.
  intros Hu0 Hu1. unfold fadd, fmul.
  assert (0 <= round64 (5 * u)) as Hy0 by (apply round64_nonneg; lra).
  assert (round64 (5 * u) <= 5) as Hy5.
  { apply (round64_int_le _ 5); [done |]. change (inject_Z 5) with 5. lra. }
  split.
  - apply (round64_int_ge _ 80); [done |]. change (inject_Z 80) with 80. lra.
  - apply (round64_int_le _ 85); [done |]. change (inject_Z 85) with 85. lra.
Qed.

Lemma top_coded_age_error u :
  0 <= u → u < 1 →
  Qabs (fadd 80 (fmul 5 u) - (80 + 5 * u)) <= 2 ^ (-46).
Proof.
  intros Hu0 Hu1. unfold fadd, fmul.
  assert (0 <= round64 (5 * u)) as Hy0 by (apply round64_nonneg; lra).
  assert (round64 (5 * u) <= 5) as Hy5.
  { apply (round64_int_le _ 5); [done |]. change (inject_Z 5) with 5. lra. }
  pose proof (round64_abs_error (5 * u) 2) as Hy.
  rewrite Qabs_pos in Hy by lra.
  change (2 ^ (2 + 1)) with 8 in Hy. specialize (Hy ltac:(lra) ltac:(done)).
  pose proof (round64_abs_error (80 + round64 (5 * u)) 6) as Ha.
  rewrite (Qabs_pos (80 + _)) in Ha by lra.
  change (2 ^ (6 + 1)) with 128 in Ha. specialize (Ha ltac:(lra) ltac:(done)).
  assert (2 ^ (2 - 53) + 2 ^ (6 - 53) <= 2 ^ (-46)) as Hsum
    by (vm_compute; discriminate).
  set (y := round64 (5 * u)) in *. set (a := round64 (80 + y)) in *.
  clearbody y a.
  set (e1 := 2 ^ (2 - 53)) in *. set (e2 := 2 ^ (6 - 53)) in *.
  set (e := 2 ^ (-46)) in *. clearbody e1 e2 e.
  apply Qabs_Qle_condition in Hy as [? ?].
  apply Qabs_Qle_condition in Ha as [? ?].
  apply Qabs_Qle_condition. split; lra.
Qed.

End Binary64.

(** * Running the passes *)

Section Run.
Context {S A B : Type}.

Lemma bind_ok (m : M S A) (k : A → M S B) s a s' :
  m s = (Ok a, s') → (m ≫= k) s = k a s'.
Proof. intros H. unfold mbind, M_bind, bind. by rewrite H. Qed.

Lemma bind_err (m : M S A) (k : A → M S B) s e s' :
  m s = (Err e, s') → (m ≫= k) s = (Err e, s').
Proof. intros H. unfold mbind, M_bind, bind. by rewrite H. Qed.

End Run.

(** Statements that succeed. *)
Lemma assign_fresh k c (f : h5file) :
  f !! k = None → assign k c f = (Ok tt, <[k := c]> f).
Proof. intros H. unfold assign. by rewrite H. Qed.

Lemma read_some k c (f : h5file) : f !! k = Some c → read k f = (Ok c, f).
Proof. intros H. unfold read. by rewrite H. Qed.

Lemma read_labels_int k xs (f : h5file) :
  f !! k = Some (ColInt xs) → read_labels k f = (Ok xs, f).
Proof. intros H. unfold read_labels. by rewrite (bind_ok _ _ _ _ _ (read_some _ _ _ H)). Qed.

Lemma on_cps_run {A} (m : M h5file A) w r f :
  m (artifact w) = (r, f) → on_cps m w = (r, mkWorld (raw_data w) (cps_handle w) f).
Proof. intros H. unfold on_cps. by rewrite H. Qed.

(** A lookup in a file given as a chain of assignments. *)
Ltac lookup_chain :=
  repeat first
    [ rewrite lookup_insert_eq
    | rewrite lookup_insert_ne by discriminate
    | rewrite lookup_empty ];
  try assumption; try reflexivity.

(** One assignment of a fresh name, then the rest of the pass. *)
Ltac run_assign :=
  erewrite (bind_ok (assign _ _)); [ | apply assign_fresh; lookup_chain ].

Ltac fresh_names :=
  unfold with_spm, with_personal_income, with_late_weights, with_ids;
  repeat (apply Forall_cons_2 || apply Forall_nil_2); lookup_chain.

Ltac final_lookup :=
  unfold final_artifact, with_spm, with_personal_income, with_late_weights,
    with_ids;
  cbn [artifact]; lookup_chain.

(** The four later passes, on a file that has none of their names. *)
Lemma add_personal_variables_run draws person (f : h5file) :
  f !! "age" = None →
  add_personal_variables draws person f =
    (Ok tt, <["age" := ColFloat (age_column draws person)]> f).
Proof. intros H. by apply assign_fresh. Qed.

Lemma add_personal_income_variables_run person (f : h5file) :
  Forall (fun k => f !! k = None) income_names →
  add_personal_income_variables person f = (Ok tt, with_personal_income person f).
Proof.
  intros H. repeat (apply Forall_cons_1 in H as [? H]).
  unfold add_personal_income_variables.
  do 6 run_assign.
  apply assign_fresh. lookup_chain.
Qed.

Lemma add_spm_variables_run spm_unit (f : h5file) :
  Forall (fun k => f !! k = None) spm_names →
  add_spm_variables spm_unit f = (Ok tt, with_spm spm_unit f).
Proof.
  intros H. repeat (apply Forall_cons_1 in H as [? H]).
  unfold add_spm_variables, SPM_RENAMES, copy_renamed.
  erewrite bind_ok; last first.
  { repeat (erewrite (bind_ok (lift_result _)); [ | reflexivity ]; cbv beta; run_assign).
    reflexivity. }
  erewrite bind_ok; [ | apply read_some; lookup_chain ].
  apply assign_fresh. lookup_chain.
Qed.

Lemma add_household_variables_run household (f : h5file) :
  f !! "fips" = None →
  add_household_variables household f =
    (Ok tt, <["fips" := ColInt (map Household.GESTFIPS household)]> f).
Proof. intros H. by apply assign_fresh. Qed.

(** * Column arithmetic, row by row *)

Lemma col_add_scale_map {A} (c : Z) (f g : A → Z) (l : list A) :
  col_add (col_scale c (map f l)) (map g l)
  = map (fun x => wrap64 (wrap64 (f x * c) + g x)) l.
Proof.
  unfold col_add, col_scale. induction l as [| x l IH]; simpl; [done |].
  by rewrite IH.
Qed.

Lemma zip_map_same {A B C} (f : A → B) (g : A → C) (l : list A) :
  zip (map f l) (map g l) = map (fun x => (f x, g x)) l.
Proof. induction l as [| x l IH]; simpl; [done | by rewrite IH]. Qed.

Lemma make_family_weight_series family :
  make_series (col_div100 (map Family.FSUP_WGT family))
    (col_add (col_scale 10 (map Family.FH_SEQ family)) (map Family.FFPOS family))
  = Ok (family_weight_series family).
Proof.
  unfold make_series, col_div100.
  rewrite col_add_scale_map, !length_map, Nat.eqb_refl.
  rewrite map_map. by rewrite zip_map_same.
Qed.

(** * The id pass and the whole run *)

(** On a file that has none of its names, [add_id_variables] writes the
    eleven direct columns; it then either raises what the weight
    propagation raises, or writes the last three. *)
Lemma add_id_variables_run raw (f : h5file) :
  Forall (fun k => f !! k = None) id_names →
  add_id_variables (person raw) (tax_unit raw) (family raw) (spm_unit raw)
      (household raw) f =
    match tax_unit_weight_series (person raw) (family raw) with
    | Ok tw => (Ok tt, with_late_weights raw tw (with_ids raw f))
    | Err e => (Err e, with_ids raw f)
    end.
Proof.
  intros H. repeat (apply Forall_cons_1 in H as [? H]).
  unfold add_id_variables, tax_unit_weight_series.
  do 11 run_assign.
  erewrite bind_ok; [ | apply read_some; lookup_chain ].
  erewrite bind_ok; [ | apply read_labels_int; lookup_chain ].
  simpl col_values.
  destruct (make_series _ _) as [fw | e]; [ | reflexivity ].
  erewrite (bind_ok (lift_result _)); [ | reflexivity ].
  erewrite bind_ok; [ | apply read_labels_int; lookup_chain ].
  destruct (series_getitem _ _) as [pfw | e]; [ | reflexivity ].
  erewrite (bind_ok (lift_result _)); [ | reflexivity ].
  erewrite bind_ok; [ | apply read_labels_int; lookup_chain ].
  destruct (groupby_first _ _) as [tw | e]; [ | reflexivity ].
  erewrite (bind_ok (lift_result _)); [ | reflexivity ].
  do 2 run_assign.
  apply assign_fresh. lookup_chain.
Qed.

(** The two ways [generate] ends. *)
Lemma generate_run raw draws w0 :
  generate raw draws w0 =
    match tax_unit_weight_series (person raw) (family raw) with
    | Ok tw => (Ok tt, mkWorld Closed Closed (final_artifact raw draws tw))
    | Err e => (Err e, mkWorld Open Open (with_ids raw ∅))
    end.
Proof.
  unfold generate.
  erewrite (bind_ok load_raw); [ | reflexivity ].
  erewrite (bind_ok open_for_write); [ | reflexivity ].
  pose proof (add_id_variables_run raw ∅) as Hid.
  destruct (tax_unit_weight_series _ _) as [tw | e].
  - erewrite bind_ok; [ | apply on_cps_run; apply Hid; fresh_names ].
    erewrite bind_ok;
      [ | apply on_cps_run, add_personal_variables_run; cbn [artifact]; fresh_names ].
    erewrite bind_ok;
      [ | apply on_cps_run, add_personal_income_variables_run; cbn [artifact]; fresh_names ].
    erewrite bind_ok;
      [ | apply on_cps_run, add_spm_variables_run; cbn [artifact]; fresh_names ].
    erewrite bind_ok;
      [ | apply on_cps_run, add_household_variables_run; cbn [artifact]; fresh_names ].
    reflexivity.
  - erewrite bind_err; [ reflexivity | ].
    apply on_cps_run. apply Hid. fresh_names.
Qed.

Lemma generate_ok raw draws w0 w :
  generate raw draws w0 = (Ok tt, w) →
  ∃ tw, tax_unit_weight_series (person raw) (family raw) = Ok tw ∧
        w = mkWorld Closed Closed (final_artifact raw draws tw).
Proof.
  rewrite generate_run.
  destruct (tax_unit_weight_series _ _) as [tw | e]; [| done].
  intros [= <-]. by exists tw.
Qed.

Lemma lookup_tax_unit_weight raw draws tw :
  final_artifact raw draws tw !! "tax_unit_weight" = Some (ColFloat tw.*2).
Proof. final_lookup. Qed.

Lemma unsorted_run :
  generate unsorted_raw example_draws example_world = (Ok tt, unsorted_output).
Proof. vm_cast_no_check (eq_refl (Ok tt, unsorted_output)). Qed.

Create Rewrite HintDb col_len.
Hint Rewrite @length_zip_with @length_map @length_fmap @length_zip @length_seq
  : col_len.

Ltac column_length :=
  cbn [col_length rows_of];
  unfold age_column, np_where, np_random_rand, mask_mul, isin, col_eq, between,
    col_add, col_scale, col_div100;
  autorewrite with col_len; lia.

(** Every column not of the tax-unit level has one entry per row of its
    raw table. *)
Lemma direct_column_rows raw draws tw e name :
  e ≠ TaxUnitLevel → name ∈ columns_of e →
  ∃ c, final_artifact raw draws tw !! name = Some c ∧ col_length c = rows_of raw e.
Proof.
  intros He Hname.
  destruct e; [| | done | |]; cbn in Hname;
    repeat (apply elem_of_cons in Hname as [-> | Hname]);
    try (by apply elem_of_nil in Hname);
    (eexists; split; [final_lookup | column_length]).
Qed.

(** * Demographics and income, row by row *)

Lemma age_column_lookup draws person i p :
  person !! i = Some p →
  age_column draws person !! i
  = Some (if Z.leb 80 (Person.A_AGE p) && Z.leb (Person.A_AGE p) 85
          then fadd 80 (fmul 5 (draws i))
          else float_of_int (Person.A_AGE p)).
Proof.
  intros Hp. pose proof (lookup_lt_Some _ _ _ Hp) as Hi.
  unfold age_column, np_where, between, np_random_rand.
  rewrite !lookup_zip_with, !list_lookup_fmap, Hp.
  rewrite lookup_seq_lt by done. simpl.
  by destruct (_ && _).
Qed.

Lemma mask_mul_lookup (test : Z → bool) (code amount : Person.row → Z) person i p :
  person !! i = Some p →
  mask_mul (map test (map code person)) (map amount person) !! i
  = Some (Z.b2z (test (code p)) * amount p).
Proof.
  intros Hp. unfold mask_mul.
  by rewrite lookup_zip_with, !list_lookup_fmap, Hp.
Qed.

(** * Label-based selection *)

Lemma series_getitem_length s keys r :
  series_getitem s keys = Ok r → (length keys ≤ length r)%nat.
Proof.
  revert r. induction keys as [| k keys IH]; intros r; simpl.
  - intros [= <-]. done.
  - destruct (rows_labelled s k) as [| row rows] eqn:Hk; [done |].
    destruct (series_getitem s keys) as [rest | e]; [| done].
    intros [= <-]. specialize (IH rest eq_refl). simpl.
    rewrite length_app. lia.
Qed.

(** When the selection has as many rows as there were labels, every
    label selected exactly one row, and the rows come in label order. *)
Lemma series_getitem_aligned s keys r :
  series_getitem s keys = Ok r → length r = length keys →
  Forall2 (fun k row => rows_labelled s k = [row]) keys r.
Proof.
  revert r. induction keys as [| k keys IH]; intros r; simpl.
  - intros [= <-] _. constructor.
  - destruct (rows_labelled s k) as [| row rows] eqn:Hk; [done |].
    destruct (series_getitem s keys) as [rest | e] eqn:Hrest; [| done].
    intros [= <-] Hlen. simpl in Hlen. rewrite length_app in Hlen.
    pose proof (series_getitem_length _ _ _ Hrest) as Hge.
    destruct rows as [| row' rows]; simpl in Hlen; [| lia].
    simpl. constructor; [done |]. apply IH; [done | lia].
Qed.

(** * Grouping *)

Lemma elem_of_insert_unique k x l :
  x ∈ insert_unique k l ↔ x = k ∨ x ∈ l.
Proof.
  induction l as [| y l IH]; simpl.
  - rewrite list_elem_of_singleton, elem_of_nil. tauto.
  - destruct (Z.ltb_spec k y); [by rewrite elem_of_cons |].
    destruct (Z.eqb_spec k y) as [-> | ?].
    + rewrite elem_of_cons. tauto.
    + rewrite !elem_of_cons, IH. tauto.
Qed.

Lemma elem_of_group_keys x keys : x ∈ group_keys keys ↔ x ∈ keys.
Proof.
  unfold group_keys. induction keys as [| k keys IH]; simpl; [done |].
  rewrite elem_of_insert_unique, IH, elem_of_cons. tauto.
Qed.

Lemma insert_unique_ascending k l : ascending l → ascending (insert_unique k l).
Proof.
  unfold ascending. induction 1 as [| y l Hl IH Hy]; simpl.
  - repeat constructor.
  - destruct (Z.ltb_spec k y).
    + constructor; [by constructor |].
      constructor; [done |]. eapply Forall_impl; [exact Hy |]. simpl. lia.
    + destruct (Z.eqb_spec k y); [by constructor |].
      constructor; [done |].
      apply Forall_forall. intros x Hx%elem_of_insert_unique.
      destruct Hx as [-> | Hx]; [lia |].
      by eapply Forall_forall in Hy.
Qed.

Lemma group_keys_ascending keys : ascending (group_keys keys).
Proof.
  unfold group_keys. induction keys as [| k keys IH]; simpl.
  - constructor.
  - by apply insert_unique_ascending.
Qed.

(** An ascending list is determined by its elements. *)
Lemma ascending_ext l1 l2 :
  ascending l1 → ascending l2 → (∀ x, x ∈ l1 ↔ x ∈ l2) → l1 = l2.
Proof.
  unfold ascending. intros H1. revert l2.
  induction H1 as [| a l1 Hl1 IH Ha]; intros l2 H2 Hext.
  - destruct l2 as [| b l2]; [done |].
    exfalso. eapply elem_of_nil, Hext. by left.
  - destruct H2 as [| b l2 Hl2 Hb].
    { exfalso. eapply elem_of_nil, Hext. by left. }
    rewrite Forall_forall in Ha, Hb.
    assert (a = b) as ->.
    { assert (a ∈ b :: l2) as Hab by (apply Hext; by left).
      assert (b ∈ a :: l1) as Hba by (apply Hext; by left).
      apply elem_of_cons in Hab as [? | Hab]; [done |].
      apply elem_of_cons in Hba as [? | Hba]; [done |].
      apply Hb in Hab. apply Ha in Hba. lia. }
    f_equal. apply IH; [done |]. intros x. split; intros Hx.
    + assert (x ∈ b :: l2) as Hx' by (apply Hext; by right).
      apply elem_of_cons in Hx' as [-> | ?]; [| done].
      apply Ha in Hx. lia.
    + assert (x ∈ b :: l1) as Hx' by (apply Hext; by right).
      apply elem_of_cons in Hx' as [-> | ?]; [| done].
      apply Hb in Hx. lia.
Qed.

Lemma group_first_is_Some keys values k :
  length keys = length values → k ∈ keys →
  is_Some (group_first keys values k).
Proof.
  revert values. induction keys as [| g keys IH]; intros [| v values] Hlen Hk;
    simpl in *; try lia.
  - by apply elem_of_nil in Hk.
  - destruct (Z.eqb_spec g k) as [| Hne]; [by eexists |].
    apply IH; [lia |]. apply elem_of_cons in Hk as [-> | ?]; done.
Qed.

Lemma Forall2_omap_Some {A B} (f : A → option B) (P : A → B → Prop) l :
  (∀ x, x ∈ l → ∃ y, f x = Some y ∧ P x y) → Forall2 P l (omap f l).
Proof.
  induction l as [| x l IH]; intros H; simpl; [constructor |].
  destruct (H x) as (y & -> & Hy); [by left |].
  constructor; [done |]. apply IH. intros z Hz. apply H. by right.
Qed.

(** The rows of a [groupby(...).first()]: one per group label, in
    ascending label order, each with the first value of its group. *)
Lemma groupby_first_rows s keys r :
  groupby_first s keys = Ok r →
  length keys = length s ∧
  Forall2 (fun k row => row.1 = k ∧ group_first keys s.*2 k = Some row.2)
    (group_keys keys) r.
Proof.
  unfold groupby_first.
  destruct (Nat.eqb_spec (length keys) (length s)) as [Hlen | ?]; [| done].
  intros [= <-]. split; [done |].
  apply Forall2_omap_Some. intros k Hk. rewrite elem_of_group_keys in Hk.
  assert (is_Some (group_first keys s.*2 k)) as [v Hv].
  { apply group_first_is_Some; [by rewrite length_fmap | done]. }
  exists (k, v). by rewrite Hv.
Qed.

(** * The derived tax-unit weight *)

Lemma rows_labelled_family_weight family k :
  rows_labelled (family_weight_series family) k
  = family_weight_series (filter (fun r => family_id r = k) family).
Proof.
  unfold rows_labelled, family_weight_series.
  induction family as [| r family IH]; [done |].
  simpl map. rewrite !filter_cons. simpl.
  destruct (decide (family_id r = k)); simpl; by rewrite IH.
Qed.

Lemma group_first_head (R : Person.row → Q → Prop) person values k v :
  Forall2 R person values →
  group_first (map Person.TAX_ID person) values k = Some v →
  ∃ p, head (filter (fun p => Person.TAX_ID p = k) person) = Some p ∧ R p v.
Proof.
  induction 1 as [| p w person values Hpw _ IH]; simpl; [done |].
  rewrite filter_cons.
  destruct (Z.eqb_spec (Person.TAX_ID p) k) as [Heq | Hne].
  - intros [= <-]. rewrite decide_True by done. by exists p.
  - rewrite decide_False by done. apply IH.
Qed.

Lemma tax_unit_weight_rows person family tw :
  tax_unit_weight_series person family = Ok tw →
  Forall2 (fun k row =>
             row.1 = k ∧ first_member_family_weight person family k = Some row.2)
    (group_keys (map Person.TAX_ID person)) tw.
Proof.
  unfold tax_unit_weight_series. rewrite make_family_weight_series.
  rewrite col_add_scale_map.
  destruct (series_getitem _ _) as [pfw | e] eqn:Hget; [| done].
  intros [Hlen Hrows]%groupby_first_rows.
  rewrite length_map in Hlen.
  apply series_getitem_aligned in Hget; [| by rewrite length_map].
  apply Forall2_fmap_l in Hget.
  assert (Forall2 (fun p v =>
            ∃ r, filter (fun r => family_id r = person_family_id p) family = [r]
                 ∧ v = div100 (Family.FSUP_WGT r)) person pfw.*2) as Hpv.
  { apply Forall2_fmap_r. eapply Forall2_impl; [exact Hget |].
    intros p row Hrow. simpl in Hrow.
    rewrite rows_labelled_family_weight in Hrow. unfold family_weight_series in Hrow.
    destruct (filter _ family) as [| r [| r' rs]]; simplify_eq/=.
    by exists r. }
  eapply Forall2_impl; [exact Hrows |].
  intros k row [Hk Hfirst]. split; [done |].
  destruct (group_first_head _ _ _ _ _ Hpv Hfirst) as (p & Hp & r & Hr & Hv).
  unfold first_member_family_weight. rewrite Hp. simpl. by rewrite Hr, Hv.
Qed.

Lemma head_filter_first {A} (P : A → Prop) `{!∀ x, Decision (P x)} (l : list A) x :
  head (filter P l) = Some x →
  ∃ i, l !! i = Some x ∧ P x ∧ ∀ j y, (j < i)%nat → l !! j = Some y → ¬ P y.
Proof.
  induction l as [| a l IH]; [done |].
  rewrite filter_cons. destruct (decide (P a)) as [Ha | Ha]; simpl.
  - intros [= <-]. exists 0%nat. split_and!; [done | done |]. intros j y Hj. lia.
  - intros (i & Hi & Hx & Hmin)%IH. exists (S i). split_and!; [done | done |].
    intros [| j] y Hj; simpl; [by intros [= <-] |].
    apply Hmin. lia.
Qed.

(** [first_member_family_weight], spelled out on row positions. *)
Lemma first_member_family_weight_Some person family k w :
  first_member_family_weight person family k = Some w →
  ∃ i p r,
    person !! i = Some p ∧ Person.TAX_ID p = k ∧
    (∀ j q, (j < i)%nat → person !! j = Some q → Person.TAX_ID q ≠ k) ∧
    filter (fun r => family_id r = person_family_id p) family = [r] ∧
    w = div100 (Family.FSUP_WGT r).
Proof.
  unfold first_member_family_weight.
  destruct (head _) as [p |] eqn:Hp; [| done]. simpl.
  destruct (filter _ family) as [| r [| r' rs]] eqn:Hr; try done.
  intros [= <-].
  apply head_filter_first in Hp as (i & Hi & Hk & Hmin).
  exists i, p, r. split_and!; try done.
Qed.

(** * When the run completes *)

Lemma Forall2_exists_l {A B} (P : A → B → Prop) l k :
  Forall2 P l k → Forall (fun x => ∃ y, P x y) l.
Proof. induction 1; constructor; eauto. Qed.

Lemma series_getitem_resolved s keys :
  Forall (fun k => ∃ row, rows_labelled s k = [row]) keys →
  ∃ r, series_getitem s keys = Ok r ∧ length r = length keys.
Proof.
  induction 1 as [| k keys [row Hrow] _ (r & Hr & Hlen)]; simpl.
  - by exists [].
  - rewrite Hrow, Hr. exists (row :: r). simpl. by rewrite Hlen.
Qed.

(** The weight propagation succeeds exactly when every person's family
    id resolves to one family row. *)
Lemma tax_unit_weight_series_ok_iff person family :
  (∃ tw, tax_unit_weight_series person family = Ok tw)
  ↔ families_resolve person family.
Proof.
  unfold tax_unit_weight_series, families_resolve.
  rewrite make_family_weight_series, col_add_scale_map. split.
  - intros [tw Htw].
    destruct (series_getitem _ _) as [pfw | e] eqn:Hget; [| done].
    apply groupby_first_rows in Htw as [Hlen _]. rewrite length_map in Hlen.
    apply series_getitem_aligned in Hget; [| by rewrite length_map].
    apply Forall2_fmap_l, Forall2_exists_l in Hget.
    eapply Forall_impl; [exact Hget |]. intros p [row Hrow].
    simpl in Hrow. rewrite rows_labelled_family_weight in Hrow.
    unfold family_weight_series in Hrow.
    destruct (filter _ family) as [| r [| r' rs]]; simplify_eq/=.
    by exists r.
  - intros Hres.
    destruct (series_getitem_resolved (family_weight_series family)
                (map person_family_id person)) as (pfw & Hget & Hlen).
    { apply Forall_fmap. eapply Forall_impl; [exact Hres |].
      intros p [r Hr]. simpl. rewrite rows_labelled_family_weight, Hr.
      by eexists. }
    change (fun x => wrap64 (wrap64 (Person.PH_SEQ x * 10) + Person.PF_SEQ x))
      with person_family_id.
    rewrite Hget. unfold groupby_first.
    rewrite Hlen, !length_map, Nat.eqb_refl. by eexists.
Qed.

Lemma generate_completes_iff raw draws w0 :
  (∃ w, generate raw draws w0 = (Ok tt, w))
  ↔ families_resolve (person raw) (family raw).
Proof.
  rewrite <- tax_unit_weight_series_ok_iff, generate_run. split.
  - intros [w Hw]. destruct (tax_unit_weight_series _ _) as [tw | e]; [| done].
    by exists tw.
  - intros [tw ->]. by eexists.
Qed.

(** When the family ids resolve, the run completes, with both handles
    closed and the file holding every column. *)
Lemma generate_resolved raw draws w0 :
  families_resolve (person raw) (family raw) →
  ∃ tw, tax_unit_weight_series (person raw) (family raw) = Ok tw ∧
        generate raw draws w0
        = (Ok tt, mkWorld Closed Closed (final_artifact raw draws tw)).
Proof.
  intros [tw Htw]%tax_unit_weight_series_ok_iff.
  exists tw. split; [done |]. by rewrite generate_run, Htw.
Qed.

Lemma example_resolves :
  families_resolve (person example_raw) (family example_raw).
Proof. repeat constructor; eexists; reflexivity. Defined.

(** * Weights are non-negative *)

Lemma col_div100_nonneg {A} (field : A → Z) (rows : list A) :
  Forall (fun r => 0 ≤ field r) rows →
  Forall (fun x => (0 <= x)%Q) (col_div100 (map field rows)).
Proof.
  unfold col_div100. rewrite map_map. intros H.
  apply Forall_fmap. eapply Forall_impl; [exact H |].
  intros r Hr. by apply div100_nonneg.
Qed.

(** * Handles *)

(** A run that completes closes both handles. *)
Lemma generate_closes_on_success raw draws w0 w :
  generate raw draws w0 = (Ok tt, w) →
  raw_data w = Closed ∧ cps_handle w = Closed.
Proof. by intros (tw & _ & ->)%generate_ok. Qed.

(** A run that fails in the weight propagation leaves both handles open
    and the file with the eleven columns written so far. *)
Lemma generate_leaks_on_failure raw draws w0 e :
  tax_unit_weight_series (person raw) (family raw) = Err e →
  generate raw draws w0 = (Err e, mkWorld Open Open (with_ids raw ∅)).
Proof. intros H. by rewrite generate_run, H. Qed.

(** * The claims *)

Lemma family_id_wrap r :
  family_id r = wrap64 (Family.FH_SEQ r * 10 + Family.FFPOS r).
Proof. apply wrap64_add_l. Qed.

Lemma person_family_id_wrap p :
  person_family_id p = wrap64 (Person.PH_SEQ p * 10 + Person.PF_SEQ p).
Proof. apply wrap64_add_l. Qed.

Lemma col_add_scale_wrap {A} (c : Z) (f g : A → Z) (l : list A) :
  col_add (col_scale c (map f l)) (map g l)
  = map (fun x => wrap64 (f x * c + g x)) l.
Proof.
  rewrite col_add_scale_map. apply map_ext. intros x. apply wrap64_add_l.
Qed.

(** C1: whenever every person's family id resolves to one family row,
    the run completes and the tax-unit weight column has one entry per
    tax unit that has a member, in the ascending order of the units'
    ids; the entry of the unit [k] is the raw weight, divided by 100,
    of the one family whose id is the [person_family_id] of the first
    person row with [person_tax_unit_id = k].  Later members of the
    unit, whatever their families weigh, do not count.  The ids are
    compared as the 64-bit integers the two id columns hold; the
    quotient is the float the division of the converted weight by
    100.0 gives, within [2 ^ (-51)] of the exact quotient, relatively. *)
Theorem tax_unit_weight_first_member raw draws w0 :
  families_resolve (person raw) (family raw) →
  ∃ w units ws,
    generate raw draws w0 = (Ok tt, w) ∧
    artifact w !! "tax_unit_weight" = Some (ColFloat ws) ∧
    ascending units ∧
    (∀ k, k ∈ units ↔ k ∈ map Person.TAX_ID (person raw)) ∧
    length ws = length units ∧
    ∀ k, k ∈ map Person.TAX_ID (person raw) →
      ∃ j i p r x,
        units !! j = Some k ∧
        person raw !! i = Some p ∧ Person.TAX_ID p = k ∧
        (∀ i' p', (i' < i)%nat → person raw !! i' = Some p' →
                  Person.TAX_ID p' ≠ k) ∧
        r ∈ family raw ∧
        wrap64 (Family.FH_SEQ r * 10 + Family.FFPOS r)
          = wrap64 (Person.PH_SEQ p * 10 + Person.PF_SEQ p) ∧
        (∀ r', r' ∈ family raw →
               wrap64 (Family.FH_SEQ r' * 10 + Family.FFPOS r')
                 = wrap64 (Person.PH_SEQ p * 10 + Person.PF_SEQ p) → r' = r) ∧
        ws !! j = Some x ∧
        x = round64 (round64 (inject_Z (Family.FSUP_WGT r)) / 100)%Q ∧
        (Qabs (x - inject_Z (Family.FSUP_WGT r) / 100)
         <= Qabs (inject_Z (Family.FSUP_WGT r) / 100) * 2 ^ (-51))%Q.
Proof.
  intros (tw & Htw & Hrun)%(generate_resolved raw draws w0).
  apply tax_unit_weight_rows in Htw.
  set (units := group_keys (map Person.TAX_ID (person raw))) in *.
  eexists _, units, tw.*2. split; [exact Hrun |]. cbn [artifact]. split_and!.
  - apply lookup_tax_unit_weight.
  - apply group_keys_ascending.
  - intros k. apply elem_of_group_keys.
  - rewrite length_fmap. symmetry. by eapply Forall2_length.
  - intros k Hk. rewrite <- elem_of_group_keys in Hk. fold units in Hk.
    apply list_elem_of_lookup in Hk as [j Hj].
    destruct (Forall2_lookup_l _ _ _ _ _ Htw Hj) as (row & Hrow & _ & Hw).
    apply first_member_family_weight_Some in Hw
      as (i & p & r & Hp & Hpk & Hmin & Hr & Hw).
    assert (r ∈ filter (fun r => family_id r = person_family_id p) (family raw))
      as [Hid Hin]%list_elem_of_filter by (rewrite Hr; by left).
    exists j, i, p, r, row.2. split_and!; try done.
    + by rewrite <- family_id_wrap, <- person_family_id_wrap.
    + intros r' Hr' Hid'.
      rewrite <- family_id_wrap, <- person_family_id_wrap in Hid'.
      assert (r' ∈ [r]) as Hone
        by (rewrite <- Hr; by apply list_elem_of_filter).
      by apply list_elem_of_singleton in Hone.
    + by rewrite list_lookup_fmap, Hrow.
    + rewrite Hw. apply div100_error.
Qed.

Lemma tax_unit_weight_first_member_witness :
  ∃ w units ws,
    generate example_raw example_draws example_world = (Ok tt, w) ∧
    artifact w !! "tax_unit_weight" = Some (ColFloat ws) ∧
    ascending units ∧
    (∀ k, k ∈ units ↔ k ∈ map Person.TAX_ID (person example_raw)) ∧
    length ws = length units ∧
    ∀ k, k ∈ map Person.TAX_ID (person example_raw) →
      ∃ j i p r x,
        units !! j = Some k ∧
        person example_raw !! i = Some p ∧ Person.TAX_ID p = k ∧
        (∀ i' p', (i' < i)%nat → person example_raw !! i' = Some p' →
                  Person.TAX_ID p' ≠ k) ∧
        r ∈ family example_raw ∧
        wrap64 (Family.FH_SEQ r * 10 + Family.FFPOS r)
          = wrap64 (Person.PH_SEQ p * 10 + Person.PF_SEQ p) ∧
        (∀ r', r' ∈ family example_raw →
               wrap64 (Family.FH_SEQ r' * 10 + Family.FFPOS r')
                 = wrap64 (Person.PH_SEQ p * 10 + Person.PF_SEQ p) → r' = r) ∧
        ws !! j = Some x ∧
        x = round64 (round64 (inject_Z (Family.FSUP_WGT r)) / 100)%Q ∧
        (Qabs (x - inject_Z (Family.FSUP_WGT r) / 100)
         <= Qabs (inject_Z (Family.FSUP_WGT r) / 100) * 2 ^ (-51))%Q.
Proof.
  exact (tax_unit_weight_first_member example_raw example_draws example_world
           example_resolves).
Defined.

(** The member of tax unit 2 listed first is in the family of weight
    10.0 (raw 1000), the other in the family of weight 20.0: the unit
    weighs 10.0.  Unit 1, of the family of weight 30.0, comes first. *)
Example first_member_wins :
  artifact example_output !! "tax_unit_weight"
  = Some (ColFloat [30%Q; 10%Q]).
Proof. vm_compute. reflexivity. Qed.

(** C2 fails on the code: with the tax-unit table listing unit 2 before
    unit 1 every family id resolves and the run completes;
    [tax_unit_id] is [2; 1], in table order, but the weights come out
    in ascending id order, [30.0; 10.0].  The weight at the position of
    unit 2 is that of the family (of raw weight 3000) of the one member
    of unit 1; the two members of unit 2 are in the families of raw
    weights 1000 and 2000, which is all the families they are in. *)
Theorem tax_unit_weight_misaligned :
  ∃ w,
    generate unsorted_raw example_draws example_world = (Ok tt, w) ∧
    map TaxUnit.TAX_ID (tax_unit unsorted_raw) = [2; 1] ∧
    artifact w !! "tax_unit_id" = Some (ColInt [2; 1]) ∧
    artifact w !! "tax_unit_weight" = Some (ColFloat [30%Q; 10%Q]) ∧
    (∀ p r, p ∈ person unsorted_raw → r ∈ family unsorted_raw →
       wrap64 (Family.FH_SEQ r * 10 + Family.FFPOS r)
         = wrap64 (Person.PH_SEQ p * 10 + Person.PF_SEQ p) →
       (Person.TAX_ID p = 2 →
          Family.FSUP_WGT r = 1000 ∨ Family.FSUP_WGT r = 2000) ∧
       (Person.TAX_ID p = 1 → Family.FSUP_WGT r = 3000)) ∧
    round64 (round64 (inject_Z 3000) / 100)%Q = 30%Q ∧
    round64 (round64 (inject_Z 1000) / 100)%Q = 10%Q ∧
    round64 (round64 (inject_Z 2000) / 100)%Q = 20%Q.
Proof.
  exists unsorted_output. split; [exact unsorted_run |].
  split; [reflexivity |].
  split; [vm_compute; reflexivity |].
  split; [vm_compute; reflexivity |].
  split; [| split_and!; vm_compute; reflexivity].
  intros p r Hp Hr.
  repeat (apply elem_of_cons in Hp as [-> | Hp]);
    try (by apply elem_of_nil in Hp);
    repeat (apply elem_of_cons in Hr as [-> | Hr]);
    try (by apply elem_of_nil in Hr);
    vm_compute; intros Hid; split; intros Hk;
    try discriminate Hid; try discriminate Hk; auto.
Qed.

(** C3, as stated, fails: the products and sums are those of 64-bit
    integer columns.  With [PH_SEQ = 92233720368547759], which fits 64
    bits, [PH_SEQ * 100 + P_SEQ] is 9223372036854775900, and
    [person_id] holds -9223372036854775716. *)
Lemma person_id_wraps_around :
  ∃ p,
    person overflow_raw = [p] ∧
    - 2 ^ 63 ≤ Person.PH_SEQ p < 2 ^ 63 ∧
    - 2 ^ 63 ≤ Person.P_SEQ p < 2 ^ 63 ∧
    Person.PH_SEQ p * 100 + Person.P_SEQ p = 9223372036854775900 ∧
    (generate overflow_raw example_draws example_world).1 = Ok tt ∧
    artifact (generate overflow_raw example_draws example_world).2 !! "person_id"
    = Some (ColInt [-9223372036854775716]) ∧
    artifact (generate overflow_raw example_draws example_world).2 !! "person_id"
    ≠ Some (ColInt (map (fun p => Person.PH_SEQ p * 100 + Person.P_SEQ p)
                      (person overflow_raw))).
Proof.
  eexists. split; [reflexivity |].
  split; [vm_compute; split; [discriminate | reflexivity] |].
  split; [vm_compute; split; [discriminate | reflexivity] |].
  split; [reflexivity |].
  split; [vm_compute; reflexivity |].
  split; [vm_compute; reflexivity |].
  vm_compute. discriminate.
Qed.

(** C3, amended: whatever the raw input, and however the run ends, the
    id and foreign-key columns hold, row by row and in row order, the
    formulas of the data model evaluated on 64-bit integers: the copied
    ids as they are, [PH_SEQ * 100 + P_SEQ], [FH_SEQ * 10 + FFPOS] and
    [PH_SEQ * 10 + PF_SEQ] wrapped around, that is the value in
    [[-2 ^ 63, 2 ^ 63)] that differs from the exact one by a multiple of
    [2 ^ 64], which is the exact one whenever that fits 64 bits. *)
Theorem id_columns_row_by_row raw draws w0 :
  let out := artifact (generate raw draws w0).2 in
  out !! "person_id"
    = Some (ColInt (map (fun p => wrap64 (Person.PH_SEQ p * 100 + Person.P_SEQ p))
                      (person raw))) ∧
  out !! "family_id"
    = Some (ColInt (map (fun r => wrap64 (Family.FH_SEQ r * 10 + Family.FFPOS r))
                      (family raw))) ∧
  out !! "household_id" = Some (ColInt (map Household.H_SEQ (household raw))) ∧
  out !! "tax_unit_id" = Some (ColInt (map TaxUnit.TAX_ID (tax_unit raw))) ∧
  out !! "spm_unit_id" = Some (ColInt (map SpmUnit.SPM_ID (spm_unit raw))) ∧
  out !! "person_household_id" = Some (ColInt (map Person.PH_SEQ (person raw))) ∧
  out !! "person_family_id"
    = Some (ColInt (map (fun p => wrap64 (Person.PH_SEQ p * 10 + Person.PF_SEQ p))
                      (person raw))) ∧
  out !! "person_tax_unit_id" = Some (ColInt (map Person.TAX_ID (person raw))) ∧
  out !! "person_spm_unit_id" = Some (ColInt (map Person.SPM_ID (person raw))) ∧
  ∀ z, - 2 ^ 63 ≤ wrap64 z < 2 ^ 63 ∧
       (∃ k, wrap64 z = z + k * 2 ^ 64) ∧
       (- 2 ^ 63 ≤ z < 2 ^ 63 → wrap64 z = z).
Proof.
  rewrite generate_run.
  destruct (tax_unit_weight_series _ _) as [tw | e]; cbn zeta; cbn [snd];
    (split_and!;
     [ final_lookup; by rewrite col_add_scale_wrap ..
     | intros z; split_and!;
       [apply wrap64_range | apply wrap64_range | apply wrap64_congruent
       | apply wrap64_small] ]).
Qed.

(** C4: whenever every person's family id resolves to one family row,
    the run completes and the family, SPM-unit and household weight
    columns are the raw fields [FSUP_WGT], [SPM_WEIGHT] and [HSUP_WGT]
    divided by 100, element by element, in row order: each entry is the
    float the division of the converted field by 100.0 gives, within
    [2 ^ (-51)] of the exact quotient, relatively. *)
Theorem direct_weight_columns raw draws w0 :
  families_resolve (person raw) (family raw) →
  ∃ w,
    generate raw draws w0 = (Ok tt, w) ∧
    artifact w !! "family_weight"
      = Some (ColFloat
                (map (fun r => round64 (round64 (inject_Z (Family.FSUP_WGT r)) / 100)%Q)
                   (family raw))) ∧
    artifact w !! "spm_unit_weight"
      = Some (ColFloat
                (map (fun r => round64 (round64 (inject_Z (SpmUnit.SPM_WEIGHT r)) / 100)%Q)
                   (spm_unit raw))) ∧
    artifact w !! "household_weight"
      = Some (ColFloat
                (map (fun r => round64 (round64 (inject_Z (Household.HSUP_WGT r)) / 100)%Q)
                   (household raw))) ∧
    ∀ x : Z,
      (Qabs (round64 (round64 (inject_Z x) / 100) - inject_Z x / 100)
       <= Qabs (inject_Z x / 100) * 2 ^ (-51))%Q.
Proof.
  intros (tw & _ & Hrun)%(generate_resolved raw draws w0).
  eexists. split; [exact Hrun |].
  split_and!; [final_lookup; unfold col_div100; by rewrite map_map .. |].
  apply div100_error.
Qed.

Lemma direct_weight_columns_witness :
  ∃ w,
    generate example_raw example_draws example_world = (Ok tt, w) ∧
    artifact w !! "family_weight"
      = Some (ColFloat
                (map (fun r => round64 (round64 (inject_Z (Family.FSUP_WGT r)) / 100)%Q)
                   (family example_raw))) ∧
    artifact w !! "spm_unit_weight"
      = Some (ColFloat
                (map (fun r => round64 (round64 (inject_Z (SpmUnit.SPM_WEIGHT r)) / 100)%Q)
                   (spm_unit example_raw))) ∧
    artifact w !! "household_weight"
      = Some (ColFloat
                (map (fun r => round64 (round64 (inject_Z (Household.HSUP_WGT r)) / 100)%Q)
                   (household example_raw))) ∧
    ∀ x : Z,
      (Qabs (round64 (round64 (inject_Z x) / 100) - inject_Z x / 100)
       <= Qabs (inject_Z x / 100) * 2 ^ (-51))%Q.
Proof.
  exact (direct_weight_columns example_raw example_draws example_world
           example_resolves).
Defined.

(** The weights of the extract: raw 1000, 2000 and 3000 for the
    families, 500 and 600 for the SPM units, 700 and 800 for the
    households. *)
Example direct_weight_columns_example :
  artifact example_output !! "family_weight"
    = Some (ColFloat [10%Q; 20%Q; 30%Q]) ∧
  artifact example_output !! "spm_unit_weight" = Some (ColFloat [5%Q; 6%Q]) ∧
  artifact example_output !! "household_weight" = Some (ColFloat [7%Q; 8%Q]).
Proof. split_and!; vm_compute; reflexivity. Qed.

(** C5, as stated, fails.  With every draw the largest float under 1,
    [1 - 2 ^ (-53)], which is in [0, 1), the person of raw age 85 gets
    the age 85.0: [5 * u] rounds to [5 - 2 ^ (-50)] and [80 +] that to
    85.  It is neither under 85 nor the exact [80 + 5 * u].  And a raw
    age outside [80, 85] that is not a float, [2 ^ 53 + 1], is not
    kept: the column is a float column and holds [2 ^ 53]. *)
Lemma age_reaches_85 :
  (∀ i, (0 <= top_draws i)%Q ∧ (top_draws i < 1)%Q ∧
        round64 (top_draws i) = top_draws i) ∧
  (generate example_raw top_draws example_world).1 = Ok tt ∧
  map Person.A_AGE (person example_raw) = [79; 85; 30] ∧
  artifact (generate example_raw top_draws example_world).2 !! "age"
    = Some (ColFloat [79%Q; 85%Q; 30%Q]) ∧
  ¬ (85 < 85)%Q ∧
  ¬ (85 == 80 + 5 * top_draws 1)%Q ∧
  (generate huge_age_raw example_draws example_world).1 = Ok tt ∧
  map Person.A_AGE (person huge_age_raw) = [2 ^ 53 + 1] ∧
  artifact (generate huge_age_raw example_draws example_world).2 !! "age"
    = Some (ColFloat [inject_Z (2 ^ 53)]).
Proof.
  split_and!; try (vm_compute; reflexivity); try (vm_compute; discriminate).
  intros i. split_and!; vm_compute; (reflexivity || discriminate).
Qed.

(** C5, amended: whenever every person's family id resolves to one
    family row and the draws of the random source are in [0, 1), the
    run completes and, in the age column, a person row whose raw age is
    outside [80, 85] gets it converted to a float, which is the raw age
    exactly when that is at most [2 ^ 53] in magnitude; a row whose raw
    age is in [80, 85] gets the float [80 + 5 * u] evaluates to, [u]
    the draw at the row's position: it lies in the closed interval
    [80, 85] and within [2 ^ (-46)] of the exact [80 + 5 * u]. *)
Theorem age_recoding raw draws w0 :
  families_resolve (person raw) (family raw) →
  (∀ i, (0 <= draws i)%Q ∧ (draws i < 1)%Q) →
  ∃ w ages,
    generate raw draws w0 = (Ok tt, w) ∧
    artifact w !! "age" = Some (ColFloat ages) ∧
    length ages = length (person raw) ∧
    ∀ i p, person raw !! i = Some p →
      ∃ a, ages !! i = Some a ∧
        (Person.A_AGE p < 80 ∨ 85 < Person.A_AGE p →
           a = round64 (inject_Z (Person.A_AGE p)) ∧
           (Z.abs (Person.A_AGE p) ≤ 2 ^ 53 → a = inject_Z (Person.A_AGE p))) ∧
        (80 ≤ Person.A_AGE p ≤ 85 →
           a = round64 (80 + round64 (5 * draws i))%Q ∧
           (80 <= a)%Q ∧ (a <= 85)%Q ∧
           (Qabs (a - (80 + 5 * draws i)) <= 2 ^ (-46))%Q).
Proof.
  intros (tw & _ & Hrun)%(generate_resolved raw draws w0) Hdraws.
  eexists _, (age_column draws (person raw)). split; [exact Hrun |]. split_and!.
  - final_lookup.
  - column_length.
  - intros i p Hp. eexists. split; [by apply age_column_lookup |].
    destruct (Hdraws i) as [Hu0 Hu1].
    destruct (Z.leb_spec 80 (Person.A_AGE p)),
             (Z.leb_spec (Person.A_AGE p) 85); cbn [andb];
      (split; [intros Hout | intros Hin]); try lia;
      try (split; [reflexivity | apply float_of_int_exact]).
    split; [reflexivity |].
    destruct (top_coded_age_range _ Hu0 Hu1).
    split_and!; [done | done | by apply top_coded_age_error].
Qed.

Lemma age_recoding_witness :
  ∃ w ages,
    generate example_raw example_draws example_world = (Ok tt, w) ∧
    artifact w !! "age" = Some (ColFloat ages) ∧
    length ages = length (person example_raw) ∧
    ∀ i p, person example_raw !! i = Some p →
      ∃ a, ages !! i = Some a ∧
        (Person.A_AGE p < 80 ∨ 85 < Person.A_AGE p →
           a = round64 (inject_Z (Person.A_AGE p)) ∧
           (Z.abs (Person.A_AGE p) ≤ 2 ^ 53 → a = inject_Z (Person.A_AGE p))) ∧
        (80 ≤ Person.A_AGE p ≤ 85 →
           a = round64 (80 + round64 (5 * example_draws i))%Q ∧
           (80 <= a)%Q ∧ (a <= 85)%Q ∧
           (Qabs (a - (80 + 5 * example_draws i)) <= 2 ^ (-46))%Q).
Proof.
  apply (age_recoding example_raw example_draws example_world).
  - exact example_resolves.
  - intros i. split; vm_compute; congruence.
Defined.

(** The three rows of the extract: raw ages 79, 85 and 30, every draw
    1/2. *)
Example age_recoding_example :
  artifact example_output !! "age"
  = Some (ColFloat [79%Q; (165 # 2)%Q; 30%Q]).
Proof. vm_compute. reflexivity. Qed.

(** C6: whenever every person's family id resolves to one family row,
    the run completes and, for every person row, the pension/annuity
    column [e01500] holds [OI_VAL] when [OI_OFF] is 2 or 13 and 0
    otherwise, the alimony column [e00800] holds [OI_VAL] when [OI_OFF]
    is 20 and 0 otherwise; the two conditions exclude each other, and a
    code that meets neither gives 0 in both. *)
Theorem other_income_split raw draws w0 :
  families_resolve (person raw) (family raw) →
  ∃ w pension alimony,
    generate raw draws w0 = (Ok tt, w) ∧
    artifact w !! "e01500" = Some (ColInt pension) ∧
    artifact w !! "e00800" = Some (ColInt alimony) ∧
    ∀ i p, person raw !! i = Some p →
      pension !! i
        = Some (if decide (Person.OI_OFF p = 2 ∨ Person.OI_OFF p = 13)
                then Person.OI_VAL p else 0) ∧
      alimony !! i
        = Some (if decide (Person.OI_OFF p = 20) then Person.OI_VAL p else 0) ∧
      ¬ ((Person.OI_OFF p = 2 ∨ Person.OI_OFF p = 13) ∧ Person.OI_OFF p = 20) ∧
      (Person.OI_OFF p ≠ 2 → Person.OI_OFF p ≠ 13 → Person.OI_OFF p ≠ 20 →
       pension !! i = Some 0 ∧ alimony !! i = Some 0).
Proof.
  intros (tw & _ & Hrun)%(generate_resolved raw draws w0).
  eexists _, _, _. split; [exact Hrun |].
  split_and!; [final_lookup | final_lookup |].
  intros i p Hp.
  change (isin [2; 13] (map Person.OI_OFF (person raw)))
    with (map (fun x => existsb (Z.eqb x) [2; 13]) (map Person.OI_OFF (person raw))).
  change (col_eq 20 (map Person.OI_OFF (person raw)))
    with (map (fun x => Z.eqb x 20) (map Person.OI_OFF (person raw))).
  rewrite !(mask_mul_lookup _ _ _ _ _ _ Hp). simpl.
  destruct (Z.eqb_spec (Person.OI_OFF p) 2), (Z.eqb_spec (Person.OI_OFF p) 13),
    (Z.eqb_spec (Person.OI_OFF p) 20); simpl;
    repeat case_decide; split_and!; try (intros; f_equal; lia); try lia;
    intros; try done; try tauto.
Qed.

Lemma other_income_split_witness :
  ∃ w pension alimony,
    generate example_raw example_draws example_world = (Ok tt, w) ∧
    artifact w !! "e01500" = Some (ColInt pension) ∧
    artifact w !! "e00800" = Some (ColInt alimony) ∧
    ∀ i p, person example_raw !! i = Some p →
      pension !! i
        = Some (if decide (Person.OI_OFF p = 2 ∨ Person.OI_OFF p = 13)
                then Person.OI_VAL p else 0) ∧
      alimony !! i
        = Some (if decide (Person.OI_OFF p = 20) then Person.OI_VAL p else 0) ∧
      ¬ ((Person.OI_OFF p = 2 ∨ Person.OI_OFF p = 13) ∧ Person.OI_OFF p = 20) ∧
      (Person.OI_OFF p ≠ 2 → Person.OI_OFF p ≠ 13 → Person.OI_OFF p ≠ 20 →
       pension !! i = Some 0 ∧ alimony !! i = Some 0).
Proof.
  exact (other_income_split example_raw example_draws example_world
           example_resolves).
Defined.

(** The three rows of the extract: code 2 with amount 500, code 20 with
    amount 300, code 7 with amount 100. *)
Example other_income_example :
  artifact example_output !! "e01500" = Some (ColInt [500; 0; 0]) ∧
  artifact example_output !! "e00800" = Some (ColInt [0; 300; 0]).
Proof. split; vm_compute; reflexivity. Qed.

(** C7: whenever every person's family id resolves to one family row
    and no raw weight field ([A_FNLWGT], [FSUP_WGT], [SPM_WEIGHT],
    [HSUP_WGT]) is negative in any row, the run completes and no entry
    of any weight column (person, family, tax unit, SPM unit, household)
    is negative. *)
Theorem weights_nonnegative raw draws w0 :
  families_resolve (person raw) (family raw) →
  Forall (fun p => 0 ≤ Person.A_FNLWGT p) (person raw) →
  Forall (fun r => 0 ≤ Family.FSUP_WGT r) (family raw) →
  Forall (fun r => 0 ≤ SpmUnit.SPM_WEIGHT r) (spm_unit raw) →
  Forall (fun r => 0 ≤ Household.HSUP_WGT r) (household raw) →
  ∃ w,
    generate raw draws w0 = (Ok tt, w) ∧
    Forall (fun name =>
              ∃ ws, artifact w !! name = Some (ColFloat ws) ∧
                    Forall (fun x => (0 <= x)%Q) ws)
      weight_names.
Proof.
  intros (tw & Htw & Hrun)%(generate_resolved raw draws w0) Hp Hf Hs Hh.
  eexists. split; [exact Hrun |].
  unfold weight_names.
  repeat (apply Forall_cons_2 || apply Forall_nil_2);
    (eexists; split; [final_lookup |]); try by apply col_div100_nonneg.
  apply tax_unit_weight_rows in Htw.
  apply Forall_fmap, Forall_forall. intros row Hrow.
  apply list_elem_of_lookup in Hrow as [j Hj].
  destruct (Forall2_lookup_r _ _ _ _ _ Htw Hj) as (k & _ & _ & Hw).
  apply first_member_family_weight_Some in Hw as (i & p & r & _ & _ & _ & Hr & Hw).
  assert (r ∈ filter (fun r => family_id r = person_family_id p) (family raw))
    as [_ Hin]%list_elem_of_filter by (rewrite Hr; by left).
  simpl. rewrite Hw. apply div100_nonneg. by eapply Forall_forall in Hf.
Qed.

Lemma weights_nonnegative_witness :
  ∃ w,
    generate example_raw example_draws example_world = (Ok tt, w) ∧
    Forall (fun name =>
              ∃ ws, artifact w !! name = Some (ColFloat ws) ∧
                    Forall (fun x => (0 <= x)%Q) ws)
      weight_names.
Proof.
  apply (weights_nonnegative example_raw example_draws example_world).
  - exact example_resolves.
  - cbn. repeat constructor; simpl; lia.
  - cbn. repeat constructor; simpl; lia.
  - cbn. repeat constructor; simpl; lia.
  - cbn. repeat constructor; simpl; lia.
Defined.

(** C8, as stated, fails: the table has thirteen entries, not fourteen. *)
Lemma spm_renames_not_fourteen : length SPM_RENAMES ≠ 14%nat.
Proof. discriminate. Qed.

(** C8, amended: the table has thirteen entries, pairing thirteen
    different canonical names with thirteen different raw SPM-unit
    fields; whenever every person's family id resolves to one family
    row, the run completes and the column of each canonical name is the
    raw field's column, unchanged. *)
Theorem spm_renames_copied raw draws w0 :
  families_resolve (person raw) (family raw) →
  length SPM_RENAMES = 13%nat ∧
  NoDup SPM_RENAMES.*1 ∧ NoDup SPM_RENAMES.*2 ∧
  ∃ w,
    generate raw draws w0 = (Ok tt, w) ∧
    Forall (fun '(canonical, asec) =>
              ∃ field, SpmUnit.field asec = Some field ∧
                       artifact w !! canonical
                       = Some (ColInt (map field (spm_unit raw))))
      SPM_RENAMES.
Proof.
  intros (tw & _ & Hrun)%(generate_resolved raw draws w0).
  split_and!; [done | | |];
    [apply (bool_decide_unpack _); vm_compute; exact I ..|].
  eexists. split; [exact Hrun |].
  unfold SPM_RENAMES.
  repeat (apply Forall_cons_2 || apply Forall_nil_2);
    (eexists; split; [reflexivity | final_lookup]).
Qed.

Lemma spm_renames_copied_witness :
  length SPM_RENAMES = 13%nat ∧
  NoDup SPM_RENAMES.*1 ∧ NoDup SPM_RENAMES.*2 ∧
  ∃ w,
    generate example_raw example_draws example_world = (Ok tt, w) ∧
    Forall (fun '(canonical, asec) =>
              ∃ field, SpmUnit.field asec = Some field ∧
                       artifact w !! canonical
                       = Some (ColInt (map field (spm_unit example_raw))))
      SPM_RENAMES.
Proof.
  exact (spm_renames_copied example_raw example_draws example_world
           example_resolves).
Defined.

(** C9 fails on the code: the selection of the family weights raises
    on the label 11 after the output file was opened for writing; the
    run ends there, with neither handle closed and a file that holds
    the id columns but no tax-unit weight. *)
Theorem generate_orphan_leaves_handles_open :
  ∃ w,
    generate orphan_raw example_draws example_world = (Err (KeyErrorLabel 11), w) ∧
    raw_data w = Open ∧ cps_handle w = Open ∧
    is_Some (artifact w !! "person_id") ∧
    artifact w !! "tax_unit_weight" = None.
Proof.
  eexists. split; [by apply generate_leaks_on_failure |].
  split_and!; [done | done | |]; cbn [artifact]; unfold with_ids; lookup_chain.
  by eexists.
Qed.

(** C10: whatever the raw input, and however the run ends, the artifact
    holds a person-weight column: the raw field [A_FNLWGT] divided by
    100, one entry per person row, in row order.  Each entry is the
    float the division of the converted field by 100.0 gives, within
    [2 ^ (-51)] of the exact quotient, relatively. *)
Theorem person_weight_column raw draws w0 :
  artifact (generate raw draws w0).2 !! "person_weight"
  = Some (ColFloat
            (map (fun p => round64 (round64 (inject_Z (Person.A_FNLWGT p)) / 100)%Q)
               (person raw))) ∧
  ∀ x : Z,
    (Qabs (round64 (round64 (inject_Z x) / 100) - inject_Z x / 100)
     <= Qabs (inject_Z x / 100) * 2 ^ (-51))%Q.
Proof.
  split; [| apply div100_error].
  rewrite generate_run.
  destruct (tax_unit_weight_series _ _) as [tw | e]; cbn [snd]; final_lookup;
    unfold col_div100; by rewrite map_map.
Qed.

(** The person weights of the extract: raw 150, 250 and 100. *)
Example person_weight_example :
  artifact example_output !! "person_weight"
  = Some (ColFloat [(3 # 2)%Q; (5 # 2)%Q; 1%Q]).
Proof. vm_compute. reflexivity. Qed.

(** * Further properties *)

Lemma series_getitem_orphan s keys :
  Exists (fun k => rows_labelled s k = []) keys →
  ∃ k, series_getitem s keys = Err (KeyErrorLabel k) ∧
       k ∈ keys ∧ rows_labelled s k = [].
Proof.
  induction keys as [| k0 keys IH]; intros Hex.
  - by apply Exists_nil in Hex.
  - simpl. destruct (rows_labelled s k0) as [| row rows] eqn:Hk0.
    + exists k0. split_and!; [done | by left | done].
    + apply Exists_cons in Hex as [Hk | Hex]; [congruence |].
      destruct (IH Hex) as (k & -> & Hin & Hk).
      exists k. split_and!; [done | by right | done].
Qed.

Lemma series_getitem_surplus s keys :
  Forall (fun k => rows_labelled s k ≠ []) keys →
  Exists (fun k => (2 ≤ length (rows_labelled s k))%nat) keys →
  ∃ r, series_getitem s keys = Ok r ∧ (length keys < length r)%nat.
Proof.
  induction keys as [| k0 keys IH]; intros Hall Hex.
  - by apply Exists_nil in Hex.
  - apply Forall_cons in Hall as [Hk0 Hall]. simpl.
    destruct (rows_labelled s k0) as [| row rows] eqn:Hrows; [done |].
    destruct (decide (Exists (fun k => (2 ≤ length (rows_labelled s k))%nat) keys))
      as [Hex' | Hnone].
    + destruct (IH Hall Hex') as (r & -> & Hlen).
      eexists. split; [done |]. simpl. rewrite length_app. lia.
    + apply Exists_cons in Hex as [Hk | ?]; [| done].
      rewrite Hrows in Hk. simpl in Hk.
      assert (∃ r, series_getitem s keys = Ok r ∧ (length keys ≤ length r)%nat)
        as (r & Hr & Hlen).
      { clear -Hall. induction keys as [| k keys IH]; simpl.
        - by exists [].
        - apply Forall_cons in Hall as [Hk Hall].
          destruct (rows_labelled s k) as [| row rows]; [done |].
          destruct (IH Hall) as (r & -> & Hlen).
          eexists. split; [done |]. simpl. rewrite length_app. lia. }
      rewrite Hr. eexists. split; [done |]. simpl. rewrite length_app. lia.
Qed.

Lemma rows_labelled_family_length family k :
  length (rows_labelled (family_weight_series family) k)
  = length (filter (fun r => family_id r = k) family).
Proof.
  rewrite rows_labelled_family_weight. unfold family_weight_series.
  by rewrite length_map.
Qed.

Lemma rows_labelled_family_nil family k :
  rows_labelled (family_weight_series family) k = []
  ↔ filter (fun r => family_id r = k) family = [].
Proof.
  rewrite rows_labelled_family_weight. unfold family_weight_series.
  destruct (filter _ family); simpl; split; done.
Qed.

Lemma tax_unit_weight_series_eq person family :
  tax_unit_weight_series person family =
  match series_getitem (family_weight_series family) (map person_family_id person) with
  | Ok pfw => groupby_first pfw (map Person.TAX_ID person)
  | Err e => Err e
  end.
Proof.
  unfold tax_unit_weight_series.
  by rewrite make_family_weight_series, col_add_scale_map.
Qed.

(** X1: a run completes exactly when every person's family id is the
    id of exactly one family row. *)
Theorem run_completes_iff_families_resolve raw draws w0 :
  (generate raw draws w0).1 = Ok tt
  ↔ families_resolve (person raw) (family raw).
Proof.
  rewrite <- tax_unit_weight_series_ok_iff, generate_run.
  destruct (tax_unit_weight_series _ _) as [tw | e]; simpl; split.
  - by exists tw.
  - done.
  - done.
  - by intros [tw ?].
Qed.

(** X2: when the family id of some person is the id of no family row,
    the run raises the [KeyError] of the label selection, on the family
    id of a person that has no family row. *)
Theorem generate_raises_on_orphan raw draws w0 p :
  p ∈ person raw →
  filter (fun r => family_id r = person_family_id p) (family raw) = [] →
  ∃ q, q ∈ person raw ∧
       filter (fun r => family_id r = person_family_id q) (family raw) = [] ∧
       (generate raw draws w0).1 = Err (KeyErrorLabel (person_family_id q)).
Proof.
  intros Hp Horphan.
  destruct (series_getitem_orphan (family_weight_series (family raw))
              (map person_family_id (person raw))) as (k & Hget & Hk & Hrows).
  { apply Exists_exists. exists (person_family_id p). split.
    - apply list_elem_of_fmap. by exists p.
    - by apply rows_labelled_family_nil. }
  apply list_elem_of_fmap in Hk as (q & -> & Hq).
  exists q. split_and!; [done | by apply rows_labelled_family_nil |].
  rewrite generate_run, tax_unit_weight_series_eq, Hget. done.
Qed.

Lemma generate_raises_on_orphan_witness :
  ∃ q, q ∈ person orphan_raw ∧
       filter (fun r => family_id r = person_family_id q) (family orphan_raw) = [] ∧
       (generate orphan_raw example_draws example_world).1
       = Err (KeyErrorLabel (person_family_id q)).
Proof.
  apply (generate_raises_on_orphan orphan_raw example_draws example_world
           (example_person 1 1 1 1 1 150 40 0 0)).
  - by left.
  - reflexivity.
Defined.

(** X3: when every person's family id is the id of some family row,
    and that of one person the id of two or more, the selection returns
    more rows than there are persons and the run raises the length
    error of [groupby]. *)
Theorem generate_raises_on_repeated_family raw draws w0 p :
  Forall (fun q => filter (fun r => family_id r = person_family_id q) (family raw) ≠ [])
    (person raw) →
  p ∈ person raw →
  (2 ≤ length (filter (fun r => family_id r = person_family_id p) (family raw)))%nat →
  ∃ m, (generate raw draws w0).1 = Err (LengthMismatch (length (person raw)) m) ∧
       (length (person raw) < m)%nat.
Proof.
  intros Hall Hp Htwo.
  destruct (series_getitem_surplus (family_weight_series (family raw))
              (map person_family_id (person raw))) as (r & Hget & Hlen).
  { apply Forall_fmap. eapply Forall_impl; [exact Hall |].
    intros q Hq. simpl. by rewrite rows_labelled_family_nil. }
  { apply Exists_exists. exists (person_family_id p). split.
    - apply list_elem_of_fmap. by exists p.
    - by rewrite rows_labelled_family_length. }
  rewrite length_map in Hlen.
  exists (length r). split; [| done].
  rewrite generate_run, tax_unit_weight_series_eq, Hget.
  unfold groupby_first. rewrite length_map.
  destruct (Nat.eqb_spec (length (person raw)) (length r)); [lia | done].
Qed.

Lemma generate_raises_on_repeated_family_witness :
  ∃ m, (generate repeated_raw example_draws example_world).1
       = Err (LengthMismatch (length (person repeated_raw)) m) ∧
       (length (person repeated_raw) < m)%nat.
Proof.
  apply (generate_raises_on_repeated_family repeated_raw example_draws example_world
           (example_person 1 1 1 1 1 150 40 0 0)).
  - repeat constructor. vm_compute. discriminate.
  - by left.
  - vm_compute. lia.
Defined.

(** The names bound in a file given as a chain of assignments. *)
Lemma is_Some_list_to_map (l : list (string * column)) (names : list string) name :
  l.*1 ⊆ names → names ⊆ l.*1 →
  is_Some ((list_to_map l : h5file) !! name) ↔ name ∈ names.
Proof.
  intros H1 H2. rewrite <- elem_of_dom, dom_list_to_map_L, elem_of_list_to_set.
  split; [apply H1 | apply H2].
Qed.

Ltac chain_writes m :=
  lazymatch m with
  | <[?k := ?v]> ?m' => let l := chain_writes m' in constr:((k, v) :: l)
  | ∅ => constr:(@nil (string * column))
  end.

Ltac names_of_chain :=
  lazymatch goal with
  | |- is_Some (?m !! _) ↔ _ =>
      let l := chain_writes m in
      change m with (list_to_map l : h5file);
      apply is_Some_list_to_map;
      apply (bool_decide_unpack _); vm_compute; exact I
  end.

(** X4: every run that raises leaves both handles open and the file
    with exactly the eleven names bound before the weight propagation. *)
Theorem failed_run_state raw draws w0 e w :
  generate raw draws w0 = (Err e, w) →
  raw_data w = Open ∧ cps_handle w = Open ∧
  ∀ name, is_Some (artifact w !! name) ↔ name ∈ names_before_propagation.
Proof.
  rewrite generate_run.
  destruct (tax_unit_weight_series _ _) as [tw | e']; [done |].
  intros [= _ <-]. split_and!; [done | done |].
  intros name. cbn [artifact]. unfold with_ids, names_before_propagation.
  names_of_chain.
Qed.

Lemma failed_run_state_witness :
  raw_data (generate orphan_raw example_draws example_world).2 = Open ∧
  cps_handle (generate orphan_raw example_draws example_world).2 = Open ∧
  ∀ name,
    is_Some (artifact (generate orphan_raw example_draws example_world).2 !! name)
    ↔ name ∈ names_before_propagation.
Proof.
  apply (failed_run_state orphan_raw example_draws example_world
           (KeyErrorLabel 11)).
  rewrite generate_run. reflexivity.
Defined.

(** X5: every run that completes leaves both handles closed and the
    file with exactly the thirty-seven names of the five levels, no two
    the same. *)
Theorem completed_run_schema raw draws w0 w :
  generate raw draws w0 = (Ok tt, w) →
  raw_data w = Closed ∧ cps_handle w = Closed ∧
  length all_names = 37%nat ∧ NoDup all_names ∧
  ∀ name, is_Some (artifact w !! name) ↔ name ∈ all_names.
Proof.
  intros (tw & _ & ->)%generate_ok.
  split_and!; [done | done | done | |].
  { apply (bool_decide_unpack _). vm_compute. exact I. }
  intros name. cbn [artifact].
  unfold final_artifact, with_spm, with_personal_income, with_late_weights, with_ids.
  names_of_chain.
Qed.

Lemma completed_run_schema_witness :
  raw_data example_output = Closed ∧ cps_handle example_output = Closed ∧
  length all_names = 37%nat ∧ NoDup all_names ∧
  ∀ name, is_Some (artifact example_output !! name) ↔ name ∈ all_names.
Proof.
  apply (completed_run_schema example_raw example_draws example_world).
  unfold example_output. rewrite generate_run. reflexivity.
Defined.

Lemma final_artifact_without_age raw d1 d2 tw :
  delete "age" (final_artifact raw d1 tw) = delete "age" (final_artifact raw d2 tw).
Proof.
  unfold final_artifact, with_spm, with_personal_income.
  repeat rewrite (delete_insert_ne _ "age") by discriminate.
  by rewrite !delete_insert_eq.
Qed.

(** X7: whether a run completes does not depend on the random source,
    and no column other than [age] does. *)
Theorem only_age_depends_on_draws raw d1 d2 w0 :
  (generate raw d1 w0).1 = (generate raw d2 w0).1 ∧
  ∀ name, name ≠ "age" →
    artifact (generate raw d1 w0).2 !! name
    = artifact (generate raw d2 w0).2 !! name.
Proof.
  rewrite !generate_run.
  destruct (tax_unit_weight_series _ _) as [tw | e]; cbn [fst snd artifact];
    (split; [done |]); [| done].
  intros name Hname.
  rewrite <- (lookup_delete_ne (final_artifact raw d1 tw) "age" name) by done.
  rewrite <- (lookup_delete_ne (final_artifact raw d2 tw) "age" name) by done.
  by rewrite (final_artifact_without_age raw d1 d2).
Qed.

Lemma age_column_length draws person :
  length (age_column draws person) = length person.
Proof. column_length. Qed.

(** X8: two random sources that agree at the positions of the person
    rows whose raw age is in [80, 85] give the same run; the draws at
    the other positions, and beyond the last person row, are not used. *)
Theorem draws_matter_at_top_coded_rows_only raw d1 d2 w0 :
  (∀ i p, person raw !! i = Some p → 80 ≤ Person.A_AGE p ≤ 85 → d1 i = d2 i) →
  generate raw d1 w0 = generate raw d2 w0.
Proof.
  intros Hsame. rewrite !generate_run.
  destruct (tax_unit_weight_series _ _) as [tw | e]; [| done].
  unfold final_artifact.
  replace (age_column d1 (person raw)) with (age_column d2 (person raw)); [done |].
  apply list_eq. intros i.
  destruct (person raw !! i) as [p |] eqn:Hp.
  - rewrite !(age_column_lookup _ _ _ _ Hp).
    destruct (Z.leb_spec 80 (Person.A_AGE p)),
             (Z.leb_spec (Person.A_AGE p) 85); simpl; try done.
    by rewrite (Hsame i p Hp).
  - apply lookup_ge_None in Hp.
    rewrite !(proj2 (lookup_ge_None _ _)); [done | |];
      by rewrite age_column_length.
Qed.

Lemma draws_matter_at_top_coded_rows_only_witness :
  generate example_raw example_draws example_world
  = generate example_raw (fun i => if Nat.eqb i 1 then 1 # 2 else 0%Q) example_world.
Proof.
  apply (draws_matter_at_top_coded_rows_only example_raw).
  intros [| [| [| i]]] p [= <-]; cbn; intros; (done || lia).
Defined.

(** X9: on every run that completes, [reduced_price_school_meals] has
    one entry per SPM unit and every entry is 0, whatever
    [free_school_meals] (the raw [SPM_SCHLUNCH]) holds. *)
Theorem reduced_price_school_meals_all_zero raw draws w0 :
  families_resolve (person raw) (family raw) →
  ∃ w,
    generate raw draws w0 = (Ok tt, w) ∧
    artifact w !! "free_school_meals"
      = Some (ColInt (map SpmUnit.SPM_SCHLUNCH (spm_unit raw))) ∧
    artifact w !! "reduced_price_school_meals"
      = Some (ColInt (replicate (length (spm_unit raw)) 0)).
Proof.
  intros (tw & _ & Hrun)%(generate_resolved raw draws w0).
  eexists. split; [exact Hrun |]. split; [final_lookup |].
  final_lookup. do 2 f_equal. unfold col_scale.
  induction (spm_unit raw) as [| r l IH]; simpl; [done |].
  by rewrite IH, Z.mul_0_r.
Qed.

Lemma reduced_price_school_meals_all_zero_witness :
  ∃ w,
    generate example_raw example_draws example_world = (Ok tt, w) ∧
    artifact w !! "free_school_meals" = Some (ColInt [40; 0]) ∧
    artifact w !! "reduced_price_school_meals" = Some (ColInt [0; 0]).
Proof.
  exact (reduced_price_school_meals_all_zero example_raw example_draws
           example_world example_resolves).
Defined.

(** X10: on every run that completes, the five directly copied income
    columns and [fips] are the raw fields [WSAL_VAL], [SEMP_VAL],
    [FRSE_VAL], [SS_VAL], [UC_VAL] and [GESTFIPS], unchanged and in row
    order. *)
Theorem direct_copies raw draws w0 :
  families_resolve (person raw) (family raw) →
  ∃ w,
    generate raw draws w0 = (Ok tt, w) ∧
    artifact w !! "employment_income"
      = Some (ColInt (map Person.WSAL_VAL (person raw))) ∧
    artifact w !! "self_employment_income"
      = Some (ColInt (map Person.SEMP_VAL (person raw))) ∧
    artifact w !! "e02100" = Some (ColInt (map Person.FRSE_VAL (person raw))) ∧
    artifact w !! "social_security" = Some (ColInt (map Person.SS_VAL (person raw))) ∧
    artifact w !! "e02300" = Some (ColInt (map Person.UC_VAL (person raw))) ∧
    artifact w !! "fips" = Some (ColInt (map Household.GESTFIPS (household raw))).
Proof.
  intros (tw & _ & Hrun)%(generate_resolved raw draws w0).
  eexists. split; [exact Hrun |]. split_and!; final_lookup.
Qed.

Lemma direct_copies_witness :
  ∃ w,
    generate example_raw example_draws example_world = (Ok tt, w) ∧
    artifact w !! "employment_income"
      = Some (ColInt (map Person.WSAL_VAL (person example_raw))) ∧
    artifact w !! "self_employment_income"
      = Some (ColInt (map Person.SEMP_VAL (person example_raw))) ∧
    artifact w !! "e02100" = Some (ColInt (map Person.FRSE_VAL (person example_raw))) ∧
    artifact w !! "social_security"
      = Some (ColInt (map Person.SS_VAL (person example_raw))) ∧
    artifact w !! "e02300" = Some (ColInt (map Person.UC_VAL (person example_raw))) ∧
    artifact w !! "fips" = Some (ColInt [6; 36]).
Proof.
  exact (direct_copies example_raw example_draws example_world example_resolves).
Defined.

(** X11: on every run that completes, every tax-unit weight is an
    entry of the family-weight column (no weight is computed, only
    picked), and there are at most as many tax-unit weights as
    persons. *)
Theorem tax_unit_weights_are_family_weights raw draws w0 :
  families_resolve (person raw) (family raw) →
  ∃ w tws fws,
    generate raw draws w0 = (Ok tt, w) ∧
    artifact w !! "tax_unit_weight" = Some (ColFloat tws) ∧
    artifact w !! "family_weight" = Some (ColFloat fws) ∧
    tws ⊆ fws ∧
    (length tws ≤ length (person raw))%nat.
Proof.
  intros (tw & Htw & Hrun)%(generate_resolved raw draws w0).
  eexists _, _, _. split; [exact Hrun |].
  split; [final_lookup |]. split; [final_lookup |].
  apply tax_unit_weight_rows in Htw. split.
  - intros x Hx. apply list_elem_of_fmap in Hx as (row & -> & Hrow).
    apply list_elem_of_lookup in Hrow as [j Hj].
    destruct (Forall2_lookup_r _ _ _ _ _ Htw Hj) as (k & _ & _ & Hw).
    apply first_member_family_weight_Some in Hw
      as (i & p & r & _ & _ & _ & Hr & ->).
    assert (r ∈ filter (fun r => family_id r = person_family_id p) (family raw))
      as [_ Hin]%list_elem_of_filter by (rewrite Hr; by left).
    unfold col_div100. rewrite map_map.
    apply list_elem_of_fmap. by exists r.
  - rewrite length_fmap, <- (Forall2_length _ _ _ Htw).
    assert (∀ keys, length (group_keys keys) ≤ length keys)%nat as Hle.
    { clear. unfold group_keys. induction keys as [| k keys IH]; simpl; [done |].
      assert (∀ l, length (insert_unique k l) ≤ S (length l))%nat as Hins.
      { clear. induction l as [| x l IH]; simpl; [done |].
        destruct (k <? x); simpl; [lia |]. destruct (k =? x); simpl; lia. }
      specialize (Hins (foldr insert_unique [] keys)). lia. }
    specialize (Hle (map Person.TAX_ID (person raw))).
    by rewrite length_map in Hle.
Qed.

Lemma tax_unit_weights_are_family_weights_witness :
  ∃ w tws fws,
    generate example_raw example_draws example_world = (Ok tt, w) ∧
    artifact w !! "tax_unit_weight" = Some (ColFloat tws) ∧
    artifact w !! "family_weight" = Some (ColFloat fws) ∧
    tws ⊆ fws ∧
    (length tws ≤ length (person example_raw))%nat.
Proof.
  exact (tax_unit_weights_are_family_weights example_raw example_draws
           example_world example_resolves).
Defined.

Lemma head_filter_elem {A} (P : A → Prop) `{!∀ x, Decision (P x)} (l : list A) x :
  head (filter P l) = Some x → x ∈ l ∧ P x.
Proof.
  intros Hx. assert (x ∈ filter P l) as Hin.
  { destruct (filter P l); simplify_eq/=. by left. }
  apply list_elem_of_filter in Hin. tauto.
Qed.

(** X12: when the members of every tax unit belong to one family, the
    weight of a person's tax unit is the weight of that person's family,
    for every person and not only the first of the unit: the order of
    the person rows then does not matter. *)
Theorem tax_unit_weight_is_every_members_family_weight raw draws w0 :
  families_resolve (person raw) (family raw) →
  tax_units_within_families (person raw) →
  ∃ w ws,
    generate raw draws w0 = (Ok tt, w) ∧
    artifact w !! "tax_unit_weight" = Some (ColFloat ws) ∧
    ∀ p, p ∈ person raw →
      ∃ j r,
        group_keys (map Person.TAX_ID (person raw)) !! j = Some (Person.TAX_ID p) ∧
        r ∈ family raw ∧ family_id r = person_family_id p ∧
        ws !! j = Some (div100 (Family.FSUP_WGT r)).
Proof.
  intros Hres Hwithin.
  destruct (generate_resolved raw draws w0 Hres) as (tw & Htw & Hrun).
  eexists _, _. split; [exact Hrun |]. split; [final_lookup |].
  apply tax_unit_weight_rows in Htw.
  intros p Hp.
  assert (Person.TAX_ID p ∈ group_keys (map Person.TAX_ID (person raw))) as Hk.
  { apply elem_of_group_keys, list_elem_of_fmap. by exists p. }
  apply list_elem_of_lookup in Hk as [j Hj].
  destruct (Forall2_lookup_l _ _ _ _ _ Htw Hj) as (row & Hrow & _ & Hw).
  unfold first_member_family_weight in Hw.
  destruct (head _) as [q |] eqn:Hq; [| done]. simpl in Hw.
  apply head_filter_elem in Hq as [Hqin Hqk].
  destruct (filter _ (family raw)) as [| r [| r' rs]] eqn:Hr; try done.
  injection Hw as Hw.
  assert (r ∈ filter (fun r => family_id r = person_family_id q) (family raw))
    as [Hid Hin]%list_elem_of_filter by (rewrite Hr; by left).
  exists j, r. split_and!; [done | done | |].
  - rewrite Hid. by apply Hwithin.
  - rewrite list_lookup_fmap, Hrow. simpl. by rewrite Hw.
Qed.

Lemma tax_unit_weight_is_every_members_family_weight_witness :
  ∃ w ws,
    generate household_raw example_draws example_world = (Ok tt, w) ∧
    artifact w !! "tax_unit_weight" = Some (ColFloat ws) ∧
    ∀ p, p ∈ person household_raw →
      ∃ j r,
        [7; 9] !! j = Some (Person.TAX_ID p) ∧
        r ∈ family household_raw ∧ family_id r = person_family_id p ∧
        ws !! j = Some (div100 (Family.FSUP_WGT r)).
Proof.
  apply (tax_unit_weight_is_every_members_family_weight household_raw
           example_draws example_world).
  - repeat constructor; eexists; reflexivity.
  - intros p q Hp Hq.
    repeat (apply elem_of_cons in Hp as [-> | Hp]);
      repeat (apply elem_of_cons in Hq as [-> | Hq]);
      try (by apply elem_of_nil in Hp); try (by apply elem_of_nil in Hq);
      cbn; intros; (done || lia).
Defined.

Lemma append_only_mret {A} (a : A) : append_only (mret a : M h5file A).
Proof. by intros f. Qed.

Lemma append_only_lift_result {A} (r : result A) :
  append_only (lift_result r : M h5file A).
Proof. by intros f. Qed.

Lemma append_only_assign k c : append_only (assign k c).
Proof.
  intros f. unfold assign. destruct (f !! k) eqn:Hk; simpl; [done |].
  by apply insert_subseteq.
Qed.

Lemma append_only_read k : append_only (read k).
Proof. intros f. unfold read. by destruct (f !! k). Qed.

Lemma append_only_bind {A B} (m : M h5file A) (k : A → M h5file B) :
  append_only m → (∀ a, append_only (k a)) → append_only (m ≫= k).
Proof.
  intros Hm Hk f. unfold mbind, M_bind, bind.
  specialize (Hm f). destruct (m f) as [[a | e] f']; simpl in *; [| done].
  etrans; [exact Hm | apply Hk].
Qed.

Lemma append_only_read_labels k : append_only (read_labels k).
Proof.
  apply append_only_bind; [apply append_only_read |].
  intros [xs | xs]; by intros f.
Qed.

Ltac append_only_steps :=
  repeat first
    [ apply append_only_assign
    | apply append_only_read
    | apply append_only_read_labels
    | apply append_only_lift_result
    | apply append_only_mret
    | apply append_only_bind; [| intros ?] ].

Lemma append_only_copy_renamed spm_unit renames :
  append_only (copy_renamed spm_unit renames).
Proof.
  induction renames as [| [canonical asec] renames IH]; simpl.
  - apply append_only_mret.
  - append_only_steps. exact IH.
Qed.

Lemma run_pass_append_only raw draws p : append_only (run_pass raw draws p).
Proof.
  destruct p; simpl;
    unfold add_id_variables, add_personal_variables,
      add_personal_income_variables, add_spm_variables, add_household_variables.
  - append_only_steps.
  - append_only_steps.
  - append_only_steps.
  - apply append_only_bind; [apply append_only_copy_renamed | intros ?].
    append_only_steps.
  - append_only_steps.
Qed.

(** X13: each of the five passes only adds datasets: every dataset of
    the file it is run on is still there, unchanged, when the pass
    returns or raises. *)
Theorem passes_append_only raw draws p (f : h5file) :
  f ⊆ (run_pass raw draws p f).2.
Proof. apply run_pass_append_only. Qed.

Lemma assign_first_once {A} k c (rest : unit → M h5file A) (f f' : h5file) a :
  (∀ u, append_only (rest u)) →
  (assign k c ≫= rest) f = (Ok a, f') →
  (assign k c ≫= rest) f' = (Err (NameExists k), f').
Proof.
  intros Hrest. unfold mbind, M_bind, bind, assign.
  destruct (f !! k) eqn:Hk; [done |]. intros Hrun.
  assert (f' !! k = Some c) as ->; [| done].
  specialize (Hrest tt (<[k := c]> f)). rewrite Hrun in Hrest. simpl in Hrest.
  eapply lookup_weaken; [| exact Hrest]. apply lookup_insert_eq.
Qed.

Lemma bind_assoc {S A B C} (m : M S A) (k : A → M S B) (h : B → M S C) s :
  ((m ≫= k) ≫= h) s = (m ≫= (fun a => k a ≫= h)) s.
Proof. unfold mbind, M_bind, bind. by destruct (m s) as [[a | e] s']. Qed.

Lemma add_spm_variables_first spm_unit (f : h5file) :
  add_spm_variables spm_unit f
  = (assign "spm_unit_total_income" (ColInt (map SpmUnit.SPM_TOTVAL spm_unit))
     ≫= fun _ =>
       copy_renamed spm_unit (tail SPM_RENAMES);;
       c ← read "free_school_meals";
       assign "reduced_price_school_meals"
         (match c with
          | ColInt xs => ColInt (col_scale 0 xs)
          | ColFloat xs => ColFloat (map (fun x => fmul x 0) xs)
          end)) f.
Proof.
  unfold add_spm_variables, SPM_RENAMES. cbn [copy_renamed tail].
  rewrite bind_assoc. erewrite (bind_ok (lift_result _)); [| reflexivity].
  by rewrite bind_assoc.
Qed.

(** X14: no pass can be run twice on one file: after a run that
    completed, a second run raises on the first name the pass binds and
    leaves the file as it was. *)
Theorem pass_runs_once raw draws p (f f' : h5file) :
  run_pass raw draws p f = (Ok tt, f') →
  ∃ k, head (pass_names p) = Some k ∧
       run_pass raw draws p f' = (Err (NameExists k), f').
Proof.
  destruct p; simpl;
    unfold add_id_variables, add_personal_variables,
      add_personal_income_variables, add_household_variables;
    intros Hrun; (eexists; split; [reflexivity |]).
  - eapply assign_first_once; [| exact Hrun]. intros u. append_only_steps.
  - unfold assign in *. destruct (f !! "age") eqn:Hk; [done |].
    injection Hrun as <-. by rewrite lookup_insert_eq.
  - eapply assign_first_once; [| exact Hrun]. intros u. append_only_steps.
  - rewrite add_spm_variables_first in Hrun |- *.
    eapply assign_first_once; [| exact Hrun].
    intros u. apply append_only_bind; [apply append_only_copy_renamed | intros ?].
    append_only_steps.
  - unfold assign in *. destruct (f !! "fips") eqn:Hk; [done |].
    injection Hrun as <-. by rewrite lookup_insert_eq.
Qed.

Lemma later_pass_run raw draws p (f : h5file) :
  p ≠ IdVariables →
  Forall (fun k => f !! k = None) (pass_names p) →
  run_pass raw draws p f = (Ok tt, pass_result raw draws p f).
Proof.
  intros Hp Hfresh. destruct p; [done | | | |]; simpl in *.
  - apply add_personal_variables_run. by apply Forall_cons_1 in Hfresh as [? _].
  - by apply add_personal_income_variables_run.
  - by apply add_spm_variables_run.
  - apply add_household_variables_run. by apply Forall_cons_1 in Hfresh as [? _].
Qed.

Lemma write_all_insert (k : string) (c : column) l (f : h5file) :
  k ∉ l.*1 → <[k := c]> (write_all l f) = write_all l (<[k := c]> f).
Proof.
  induction l as [| [k' c'] l IH]; simpl; [done |].
  intros [Hne Hk]%not_elem_of_cons.
  rewrite <- IH by done. by apply insert_insert_ne.
Qed.

Lemma write_all_commute lA lB (f : h5file) :
  (∀ k, k ∈ lA.*1 → k ∉ lB.*1) →
  write_all lA (write_all lB f) = write_all lB (write_all lA f).
Proof.
  induction lA as [| [k c] lA IH]; simpl; intros Hdisj; [done |].
  rewrite IH by (intros k' Hk'; apply Hdisj; by right).
  apply write_all_insert, Hdisj. by left.
Qed.

Lemma write_all_lookup_None l (f : h5file) k :
  k ∉ l.*1 → f !! k = None → write_all l f !! k = None.
Proof.
  induction l as [| [k' c'] l IH]; simpl; [done |].
  intros [Hne Hk]%not_elem_of_cons Hf.
  rewrite lookup_insert_ne by done. by apply IH.
Qed.

(** The later passes as chains of assignments. *)
Lemma pass_result_writes raw draws p :
  p ≠ IdVariables →
  ∃ l, l.*1 = reverse (pass_names p) ∧
       ∀ g, pass_result raw draws p g = write_all l g.
Proof.
  intros Hp. destruct p; [done | | | |];
    lazymatch goal with
    | |- ∃ l, _ ∧ ∀ g, pass_result ?r ?d ?P g = _ =>
        let m := eval cbv [pass_result with_personal_income with_spm]
                   in (pass_result r d P ∅) in
        let l := chain_writes m in
        exists l; split; [reflexivity | intros g; reflexivity]
    end.
Qed.

Lemma later_pass_names_disjoint p q :
  p ≠ IdVariables → q ≠ IdVariables → p ≠ q →
  ∀ k, k ∈ reverse (pass_names p) → k ∉ reverse (pass_names q).
Proof.
  intros Hp Hq Hpq k. rewrite !elem_of_reverse.
  revert k. apply Forall_forall.
  destruct p, q; try done; apply (bool_decide_unpack _); vm_compute; exact I.
Qed.

Lemma later_passes_results_commute raw draws p q (f : h5file) :
  p ≠ IdVariables → q ≠ IdVariables → p ≠ q →
  pass_result raw draws p (pass_result raw draws q f)
  = pass_result raw draws q (pass_result raw draws p f).
Proof.
  intros Hp Hq Hpq.
  destruct (pass_result_writes raw draws p Hp) as (lA & HA & HrA).
  destruct (pass_result_writes raw draws q Hq) as (lB & HB & HrB).
  rewrite !HrA, !HrB. apply write_all_commute. rewrite HA, HB.
  by apply later_pass_names_disjoint.
Qed.

(** X15: the four passes after [add_id_variables] can be run in any
    order: on a file that has none of their names, two different ones
    complete in either order and leave the same file. *)
Theorem later_passes_commute raw draws p q (f : h5file) :
  p ≠ IdVariables → q ≠ IdVariables → p ≠ q →
  Forall (fun k => f !! k = None) (pass_names p ++ pass_names q) →
  (run_pass raw draws p;; run_pass raw draws q) f
  = (run_pass raw draws q;; run_pass raw draws p) f ∧
  ((run_pass raw draws p;; run_pass raw draws q) f).1 = Ok tt.
Proof.
  intros Hp Hq Hpq Hfresh. apply Forall_app in Hfresh as [Hfp Hfq].
  assert (∀ a b g, a ≠ IdVariables → b ≠ IdVariables → a ≠ b →
            Forall (fun k => g !! k = None) (pass_names b) →
            Forall (fun k => pass_result raw draws a g !! k = None) (pass_names b))
    as Hkeep.
  { clear. intros a b g Ha Hb Hab Hfresh.
    destruct (pass_result_writes raw draws a Ha) as (l & Hl & Hr).
    rewrite Hr. rewrite Forall_forall in Hfresh |- *. intros k Hk.
    apply write_all_lookup_None; [| by apply Hfresh].
    rewrite Hl. apply (later_pass_names_disjoint b a); [done | done | done |].
    by apply elem_of_reverse. }
  erewrite (bind_ok (run_pass raw draws p)); [| by apply later_pass_run].
  erewrite (bind_ok (run_pass raw draws q)); [| by apply later_pass_run].
  rewrite !later_pass_run by (done || by apply Hkeep).
  by rewrite later_passes_results_commute.
Qed.

Lemma pass_runs_once_witness :
  ∃ k, head (pass_names HouseholdVariables) = Some k ∧
       run_pass example_raw example_draws HouseholdVariables
         (<["fips" := ColInt [6; 36]]> ∅)
       = (Err (NameExists k), <["fips" := ColInt [6; 36]]> ∅).
Proof.
  apply (pass_runs_once example_raw example_draws HouseholdVariables ∅).
  reflexivity.
Defined.

Lemma later_passes_commute_witness :
  (run_pass example_raw example_draws SpmVariables;;
   run_pass example_raw example_draws HouseholdVariables) ∅
  = (run_pass example_raw example_draws HouseholdVariables;;
     run_pass example_raw example_draws SpmVariables) ∅ ∧
  ((run_pass example_raw example_draws SpmVariables;;
    run_pass example_raw example_draws HouseholdVariables) ∅).1 = Ok tt.
Proof.
  apply (later_passes_commute example_raw example_draws SpmVariables
           HouseholdVariables ∅); try discriminate.
  apply Forall_forall. intros k _. apply lookup_empty.
Defined.

(** X23: when, besides, the tax-unit table lists in ascending order,
    each once, exactly the [TAX_ID]s of the person table, the tax-unit
    weights are aligned with [tax_unit_id]: the i-th weight is the
    family weight of the first person row of the tax unit whose id is
    the i-th [tax_unit_id]. *)
Theorem tax_unit_weight_aligned_when_sorted raw draws w0 :
  families_resolve (person raw) (family raw) →
  ascending (map TaxUnit.TAX_ID (tax_unit raw)) →
  (∀ k, k ∈ map TaxUnit.TAX_ID (tax_unit raw)
        ↔ k ∈ map Person.TAX_ID (person raw)) →
  ∃ w ids ws,
    generate raw draws w0 = (Ok tt, w) ∧
    artifact w !! "tax_unit_id" = Some (ColInt ids) ∧
    artifact w !! "tax_unit_weight" = Some (ColFloat ws) ∧
    ids = map TaxUnit.TAX_ID (tax_unit raw) ∧
    length ws = length ids ∧
    ∀ i k, ids !! i = Some k →
      ∃ i' p r,
        person raw !! i' = Some p ∧ Person.TAX_ID p = k ∧
        (∀ j q, (j < i')%nat → person raw !! j = Some q →
                Person.TAX_ID q ≠ k) ∧
        r ∈ family raw ∧ family_id r = person_family_id p ∧
        ws !! i = Some (div100 (Family.FSUP_WGT r)).
Proof.
  intros (tw & Htw & Hrun)%(generate_resolved raw draws w0) Hasc Hsame.
  eexists _, _, tw.*2. split; [exact Hrun |]. cbn [artifact].
  apply tax_unit_weight_rows in Htw.
  assert (group_keys (map Person.TAX_ID (person raw))
          = map TaxUnit.TAX_ID (tax_unit raw)) as Hkeys.
  { apply ascending_ext; [apply group_keys_ascending | done |].
    intros k. by rewrite elem_of_group_keys, Hsame. }
  rewrite Hkeys in Htw.
  split; [final_lookup |]. split; [apply lookup_tax_unit_weight |].
  split; [done |].
  split; [rewrite length_fmap; symmetry; by eapply Forall2_length |].
  intros i k Hik.
  destruct (Forall2_lookup_l _ _ _ _ _ Htw Hik) as (row & Hrow & _ & Hw).
  apply first_member_family_weight_Some in Hw
    as (i' & p & r & Hp & Hpk & Hmin & Hr & Hw).
  assert (r ∈ filter (fun r => family_id r = person_family_id p) (family raw))
    as [Hid Hin]%list_elem_of_filter by (rewrite Hr; by left).
  exists i', p, r. split_and!; [done | done | done | done | done |].
  by rewrite list_lookup_fmap, Hrow, <- Hw.
Qed.

Lemma tax_unit_weight_aligned_when_sorted_witness :
  ∃ w ids ws,
    generate example_raw example_draws example_world = (Ok tt, w) ∧
    artifact w !! "tax_unit_id" = Some (ColInt ids) ∧
    artifact w !! "tax_unit_weight" = Some (ColFloat ws) ∧
    ids = [1; 2] ∧
    length ws = length ids ∧
    ∀ i k, ids !! i = Some k →
      ∃ i' p r,
        person example_raw !! i' = Some p ∧ Person.TAX_ID p = k ∧
        (∀ j q, (j < i')%nat → person example_raw !! j = Some q →
                Person.TAX_ID q ≠ k) ∧
        r ∈ family example_raw ∧ family_id r = person_family_id p ∧
        ws !! i = Some (div100 (Family.FSUP_WGT r)).
Proof.
  apply (tax_unit_weight_aligned_when_sorted example_raw example_draws
           example_world).
  - exact example_resolves.
  - unfold ascending. cbn. repeat constructor.
  - intros k. cbn. rewrite !elem_of_cons. rewrite !elem_of_nil. tauto.
Defined.

(** X24: on every run that completes, every column of the person,
    family, SPM-unit and household levels has one entry per row of the
    level's raw table, and so has the level's id column. *)
Theorem direct_columns_one_entry_per_row raw draws w0 e name :
  families_resolve (person raw) (family raw) →
  e ≠ TaxUnitLevel → name ∈ columns_of e →
  ∃ w c cid,
    generate raw draws w0 = (Ok tt, w) ∧
    artifact w !! name = Some c ∧
    artifact w !! id_column e = Some cid ∧
    col_length c = rows_of raw e ∧
    col_length cid = rows_of raw e.
Proof.
  intros (tw & _ & Hrun)%(generate_resolved raw draws w0) He Hname.
  destruct (direct_column_rows raw draws tw e name He Hname) as (c & Hc & Hlen).
  assert (id_column e ∈ columns_of e) as Hid
    by (destruct e; cbn; (by left) || done).
  destruct (direct_column_rows raw draws tw e _ He Hid) as (cid & Hcid & Hlenid).
  eexists _, c, cid. split; [exact Hrun |]. cbn [artifact].
  split_and!; assumption.
Qed.

Lemma direct_columns_one_entry_per_row_witness :
  ∃ w c cid,
    generate example_raw example_draws example_world = (Ok tt, w) ∧
    artifact w !! "e01500" = Some c ∧
    artifact w !! "person_id" = Some cid ∧
    col_length c = 3%nat ∧
    col_length cid = 3%nat.
Proof.
  apply (direct_columns_one_entry_per_row example_raw example_draws
           example_world PersonLevel "e01500").
  - exact example_resolves.
  - discriminate.
  - apply (bool_decide_unpack _). vm_compute. exact I.
Defined.

(** [generate] is the five passes, in the order of [pass], between the
    opening and the closing of the two handles. *)
Lemma generate_runs_passes raw draws :
  generate raw draws
  = (load_raw;;
     open_for_write;;
     on_cps (run_pass raw draws IdVariables);;
     on_cps (run_pass raw draws PersonalVariables);;
     on_cps (run_pass raw draws PersonalIncomeVariables);;
     on_cps (run_pass raw draws SpmVariables);;
     on_cps (run_pass raw draws HouseholdVariables);;
     close_raw;;
     close_cps).
Proof. reflexivity. Qed.


(** Two persons of one SPM unit, in a state where people under 21
    qualify as children: the formula raises. *)
Example medicaid_person_type_example :
  Medicaid.medicaid_person_type (fun _ => true) medicaid_example_persons
  = Err (TypeError "bitwise_and").
Proof. reflexivity. Qed.

Lemma co_chp_rows calc persons :
  CoChp.co_chp_urgent_care_saving calc persons
  = map (fun p =>
           Qmax 0 (CoChp.urgent_care_expense p
                   - (if CoChp.is_pregnant p then 0
                      else calc (CoChp.medicaid_income_level p))))%Q
      persons.
Proof.
  unfold CoChp.co_chp_urgent_care_saving, np_where.
  induction persons as [| p persons IH]; simpl; [done |].
  rewrite <- IH. by destruct (CoChp.is_pregnant p).
Qed.


(** X20: when the schedule has no negative copay, the saving never
    exceeds the expense (or 0), and it is 0 exactly when the expense
    does not exceed the copay. *)
Theorem co_chp_saving_bounded calc persons :
  (∀ x, 0 <= calc x)%Q →
  Forall2
    (fun p s =>
       (s <= Qmax 0 (CoChp.urgent_care_expense p))%Q ∧
       (s == 0 ↔
        CoChp.urgent_care_expense p
        <= (if CoChp.is_pregnant p then 0
            else calc (CoChp.medicaid_income_level p)))%Q)
    persons (CoChp.co_chp_urgent_care_saving calc persons).
Proof.
  intros Hcalc. rewrite co_chp_rows.
  apply Forall2_fmap_r, Forall_Forall2_diag, Forall_forall.
  intros p _. simpl.
  set (copay := if CoChp.is_pregnant p then 0%Q
                else calc (CoChp.medicaid_income_level p)).
  assert (0 <= copay)%Q as Hcopay.
  { unfold copay. destruct (CoChp.is_pregnant p); [lra | apply Hcalc]. }
  destruct (Q.max_spec 0 (CoChp.urgent_care_expense p - copay)) as [[? ->] | [? ->]],
           (Q.max_spec 0 (CoChp.urgent_care_expense p)) as [[? ->] | [? ->]];
    split; try split; intros; lra.
Qed.

Lemma co_chp_saving_bounded_witness :
  Forall2
    (fun p s =>
       (s <= Qmax 0 (CoChp.urgent_care_expense p))%Q ∧
       (s == 0 ↔
        CoChp.urgent_care_expense p
        <= (if CoChp.is_pregnant p then 0
            else (fun x => if Qle_bool x 100 then 5 else 20)
                   (CoChp.medicaid_income_level p)))%Q)
    [ CoChp.mk 50 false 30; CoChp.mk 150 false 12; CoChp.mk 150 true 12 ]
    (CoChp.co_chp_urgent_care_saving
       (fun x => if Qle_bool x 100 then 5 else 20)%Q
       [ CoChp.mk 50 false 30; CoChp.mk 150 false 12; CoChp.mk 150 true 12 ]).
Proof.
  apply (co_chp_saving_bounded (fun x => if Qle_bool x 100 then 5 else 20)%Q).
  intros x. destruct (Qle_bool x 100); lra.
Defined.

Lemma add_ext {FilingStatus} (t t' : NeItemized.tax_units FilingStatus) names :
  NeItemized.count t = NeItemized.count t' →
  (∀ name, name ∈ names → NeItemized.variable t name = NeItemized.variable t' name) →
  NeItemized.add t names = NeItemized.add t' names.
Proof.
  intros Hcount Hvar. unfold NeItemized.add. rewrite Hcount.
  generalize (replicate (NeItemized.count t') 0%Q).
  induction names as [| name names IH]; intros total; simpl; [done |].
  rewrite (Hvar name) by (by left).
  apply IH. intros name' Hname'. apply Hvar. by right.
Qed.

(** X21: the result does not depend on the values of
    [salt_deduction]: replacing that column by any other leaves every
    tax unit's deductions as they were. *)
Theorem ne_itemized_ignores_salt_deduction {FilingStatus}
    (tax_unit : NeItemized.tax_units FilingStatus)
    (p : NeItemized.deductions FilingStatus) (salt : list Q) :
  NeItemized.ne_itemized_deductions
    (NeItemized.mk FilingStatus
       (NeItemized.count tax_unit)
       (NeItemized.tax_unit_itemizes tax_unit)
       (NeItemized.filing_status tax_unit)
       (fun name =>
          if String.eqb name "salt_deduction" then salt
          else NeItemized.variable tax_unit name))
    p
  = NeItemized.ne_itemized_deductions tax_unit p.
Proof.
  unfold NeItemized.ne_itemized_deductions.
  cbn [NeItemized.tax_unit_itemizes NeItemized.filing_status].
  set (t' := NeItemized.mk _ _ _ _ _).
  assert (∀ names, "salt_deduction" ∉ names →
            NeItemized.add t' names = NeItemized.add tax_unit names) as Hadd.
  { intros names Hnot. apply add_ext; [done |]. intros name Hname. simpl.
    destruct (String.eqb_spec name "salt_deduction") as [-> | ?]; done. }
  rewrite !Hadd; [done | |].
  - intros Hin%list_elem_of_singleton. discriminate.
  - intros [Hne _]%list_elem_of_filter. apply Hne. by left.
Qed.





(** The three tax units of the example: the second itemizes as the
    first does, but is not in Nebraska. *)
Example ne_itemized_example :
  Forall2 Qeq
    (NeItemized.ne_itemized_deductions_variable ne_example_in_ne
       ne_example_units ne_example_deductions)
    [10100%Q; 0%Q; 0%Q].
Proof. repeat constructor. Qed.
